(** * Matrix-multiplication benchmark: kernels, generators and drivers

    A shallow embedding of the Python programs

      - [Stage 1/Python Implementation/mm_baseline.py]
      - [Stage 2/Python Implementation/mm_opt.py]
      - [Stage 3/Python Implementation/mm_opt_par.py]

    Python lists are Rocq lists, list indexing is a partial operation that
    raises [IndexError], and every kernel is a function into the error monad
    [res].  Matrix entries range over an arbitrary carrier [F] with a zero,
    an addition and a multiplication about which nothing is assumed, so the
    results on the kernels hold in particular for IEEE doubles.  The density
    of the sparse generator is a binary64 float ([SpecFloat], 53 bits of
    precision), multiplied with rounding to nearest even and truncated by
    [int] as in Python, with its [OverflowError] and [ValueError]; the clock
    readings and what is computed from them are exact rationals.  A
    [random.Random] object is a state with a seeding function, [random()]
    and [sample()], known through their contracts only.  The drivers run in
    a state-and-error monad over a world that holds the clock and a log of
    the generator and kernel calls. *)

From Stdlib Require Import ZArith QArith Qround Qpower Lia SpecFloat.
From stdpp Require Import base tactics option list numbers sorting gmap.

Local Open Scope nat_scope.

(** ** Exceptions and the error monad *)

Inductive exn : Type :=
  | IndexError
  | ValueError
  | ZeroDivisionError
  | StatisticsError
  | OverflowError.

Inductive res (A : Type) : Type :=
  | Ok (a : A)
  | Raise (e : exn).
Arguments Ok {A} a.
Arguments Raise {A} e.

#[global] Instance res_ret : MRet res := λ A a, Ok a.
#[global] Instance res_bind : MBind res := λ A B f m,
  match m with
  | Ok a => f a
  | Raise e => Raise e
  end.
#[global] Instance res_fmap : FMap res := λ A B f m,
  match m with
  | Ok a => Ok (f a)
  | Raise e => Raise e
  end.


(** ** Python building blocks *)

(** [for x in xs: s = body(s, x)], stopping at the first exception. *)
Fixpoint for_each {M : Type → Type} `{!MBind M, !MRet M} {St X : Type}
    (xs : list X) (s : St) (body : St → X → M St) : M St :=
  match xs with
  | [] => mret s
  | x :: xs' => s' ← body s x; for_each xs' s' body
  end.

(** [l[i]] for an index that comes out of a [range] (never negative). *)
Definition getitem {A} (l : list A) (i : nat) : res A :=
  match l !! i with
  | Some x => Ok x
  | None => Raise IndexError
  end.

(** [l[i] = x] for a non-negative index. *)
Definition setitem {A} (l : list A) (i : nat) (x : A) : res (list A) :=
  if decide (i < length l) then Ok (<[i := x]> l) else Raise IndexError.

(** [l[i]] for an arbitrary integer: negative indices count from the end. *)
Definition getitemZ {A} (l : list A) (i : Z) : res A :=
  if decide (0 ≤ i)%Z then getitem l (Z.to_nat i)
  else if decide (0 ≤ Z.of_nat (length l) + i)%Z
       then getitem l (Z.to_nat (Z.of_nat (length l) + i))
       else Raise IndexError.

(** [range(n)] and [range(a, b)]. *)
Definition range (n : nat) : list nat := seq 0 n.
Definition range2 (a b : nat) : list nat := seq a (b - a).

(** [range(a, b)] over integers. *)
Definition rangeZ (a b : Z) : list Z :=
  (λ q, a + Z.of_nat q)%Z <$> seq 0 (Z.to_nat (b - a)).

(** [range(0, n, step)]: a zero step raises [ValueError], a negative step
    gives the empty range (the stop [n] is a length), a positive step the
    multiples of [step] below [n]. *)
Definition range_step (n : nat) (step : Z) : res (list nat) :=
  if decide (step = 0)%Z then Raise ValueError
  else if decide (step < 0)%Z then Ok []
  else Ok ((λ q, q * Z.to_nat step) <$> seq 0 ((n + Z.to_nat step - 1) / Z.to_nat step)).

(** [l[i0:i1]] with Python's clamping of both ends. *)
Definition clamp_index (len : nat) (i : Z) : nat :=
  if decide (i < 0)%Z then Z.to_nat (Z.max 0 (Z.of_nat len + i))
  else Nat.min (Z.to_nat i) len.
Definition slice {A} (l : list A) (i0 i1 : Z) : list A :=
  let a := clamp_index (length l) i0 in
  let b := clamp_index (length l) i1 in
  take (b - a) (drop a l).

(** [enumerate(l)]. *)
Definition enumerate {A} (l : list A) : list (nat * A) := imap (λ i x, (i, x)) l.

(** [a // b] on integers: floor division, [ZeroDivisionError] for [b = 0]. *)
Definition floordiv (a b : Z) : res Z :=
  if decide (b = 0)%Z then Raise ZeroDivisionError else Ok (a / b)%Z.

(** [l[i] = x] for an arbitrary integer index. *)
Definition setitemZ {A} (l : list A) (i : Z) (x : A) : res (list A) :=
  if decide (0 ≤ i)%Z then setitem l (Z.to_nat i) x
  else if decide (0 ≤ Z.of_nat (length l) + i)%Z
       then setitem l (Z.to_nat (Z.of_nat (length l) + i)) x
       else Raise IndexError.

(** The density is a Python float, an IEEE 754 binary64 number.
    [float_of_int] is the conversion of an integer operand ([n*n] in
    [n*n*density]), correctly rounded, with [OverflowError] when the integer
    is too large; [float_mul] is the product rounded to nearest even;
    [int_of_float] is [int(x)]: truncation towards zero, [OverflowError] on
    an infinity and [ValueError] on a NaN. *)
Definition float : Type := spec_float.
Definition prec : Z := 53.
Definition emax : Z := 1024.

Definition float_of_int (z : Z) : res float :=
  match binary_normalize prec emax z 0 false with
  | S754_infinity _ => Raise OverflowError
  | x => Ok x
  end.

Definition float_mul (x y : float) : float := SFmul prec emax x y.

Definition int_of_float (x : float) : res Z :=
  match x with
  | S754_zero _ => Ok 0%Z
  | S754_finite s m e => Ok (cond_Zopp s (Z.shiftl (Z.pos m) e))
  | S754_infinity _ => Raise OverflowError
  | S754_nan => Raise ValueError
  end.

(** The float nearest to [m * 2^e], and the exact value of a finite float. *)
Definition float_lit (m e : Z) : float := binary_normalize prec emax m e false.

Definition float_value (x : float) : Q :=
  match x with
  | S754_finite s m e => Qmult (inject_Z (cond_Zopp s (Z.pos m))) (Qpower 2 e)
  | _ => 0%Q
  end.

(** The floats that only carry measurements are modelled by exact
    rationals.  [x / y] raises [ZeroDivisionError] for a zero divisor;
    [statistics.mean] raises [StatisticsError] on an empty list. *)
Definition truediv (x y : Q) : res Q :=
  if Qeq_bool y 0 then Raise ZeroDivisionError else Ok (Qdiv x y).
Definition mean (xs : list Q) : res Q :=
  match xs with
  | [] => Raise StatisticsError
  | _ => Ok (Qdiv (foldl Qplus 0%Q xs) (inject_Z (Z.of_nat (length xs))))
  end.

(** [concurrent.futures.ProcessPoolExecutor(max_workers=p)] *)
Definition ProcessPoolExecutor (p : Z) : res unit :=
  if decide (p ≤ 0)%Z then Raise ValueError else Ok ().

Definition BASE_SEED : Z := 403086.
Definition SEED : Z := 403086.

Inductive algo : Type := Basic | Blocked | Transposed | Sparse.

(** ** A concrete generator

    A linear congruential generator in the place of [random.Random], with a
    sampler that returns the last [k] elements of the population in
    descending order, and a clock that advances by one second per reading
    (and one whose readings are the squares, so that the elapsed times
    differ).  They make the generators and drivers executable on concrete
    inputs. *)

Definition lcg_next (s : Z) : Z := ((1103515245 * s + 12345) mod 2147483648)%Z.
Definition lcg_seed (seed : Z) : Z := (seed mod 2147483648)%Z.
Definition lcg_random (s : Z) : Q * Z := (Qmake (s mod 1000) 1000, lcg_next s).
Definition lcg_sample (s : Z) (n k : nat) : list Z * Z :=
  (Z.of_nat <$> reverse (seq (n - k) k), lcg_next s).
Definition tick_clock (t : nat) : Q := inject_Z (Z.of_nat t).
Definition in_unit_interval (x : Q) : Prop := (0 <= x)%Q ∧ (x < 1)%Q.

(** The densities of the examples, as doubles [m * 2^e]: 0.5, 0.375, 0.05,
    0.3333333333333333, 0.3, 0.29, 0.1, 1.0, 2.5, -0.5 and 1e308. *)
Definition d_half : float := float_lit 1 (-1).
Definition d_twentieth : float := float_lit 7205759403792794 (-57).
Definition d_three_tenths : float := float_lit 5404319552844595 (-54).
Definition d_029 : float := float_lit 5224175567749775 (-54).
Definition d_tenth : float := float_lit 7205759403792794 (-56).
Definition d_1e308 : float := float_lit 5010420900022432 971.

Section Program.
(** Matrix entries with their arithmetic. *)
Context {F : Type} (f0 : F) (fadd fmul : F → F → F).
(** The state of a [random.Random] object: seeding, [random()] and
    [sample(range(n), k)] (called with [k ≤ n] only). *)
Context {rng : Type} (Random : Z → rng) (rnd_random : rng → F * rng)
        (rnd_sample : rng → nat → nat → list Z * rng).
(** The successive readings of [time.perf_counter]. *)
Context (clock : nat → Q).

(** ** Dense kernels (Stage 2, [mm_opt.py]; [matmul_basic] is the same
    function in Stage 1, [mm_baseline.py]) *)

Abbreviation matrix := (list (list F)).

(** [[[0.0]*m for _ in range(n)]] *)
Definition zeros (n m : nat) : matrix := replicate n (replicate m f0).

Definition matmul_basic (A B : matrix) : res matrix :=
  let n := length A in
  let C := zeros n n in
  for_each (range n) C (λ C i,
    Ai ← getitem A i; Ci ← getitem C i;
    Ci ← for_each (range n) Ci (λ Ci k,
      aik ← getitem Ai k;
      Bk ← getitem B k;
      for_each (range n) Ci (λ Ci j,
        cij ← getitem Ci j;
        bkj ← getitem Bk j;
        setitem Ci j (fadd cij (fmul aik bkj))));
    setitem C i Ci).

Definition matmul_transposed (A B : matrix) : res matrix :=
  let n := length A in
  BT ← mapM (λ i, mapM (λ j, Bj ← getitem B j; getitem Bj i) (range n)) (range n);
  let C := zeros n n in
  for_each (range n) C (λ C i,
    Ai ← getitem A i; Ci ← getitem C i;
    Ci ← for_each (range n) Ci (λ Ci j,
      btj ← getitem BT j;
      s ← for_each (range n) f0 (λ s k,
        aik ← getitem Ai k;
        bjk ← getitem btj k;
        Ok (fadd s (fmul aik bjk)));
      setitem Ci j s);
    setitem C i Ci).

(** Inside the loops the step [BS] is positive (otherwise [range_step]
    raised or was empty), so [ii + BS] is computed on naturals. *)
Definition matmul_blocked (A B : matrix) (BS : Z) : res matrix :=
  let n := length A in
  let C := zeros n n in
  iis ← range_step n BS;
  for_each iis C (λ C ii,
    kks ← range_step n BS;
    for_each kks C (λ C kk,
      jjs ← range_step n BS;
      for_each jjs C (λ C jj,
        let i_max := Nat.min (ii + Z.to_nat BS) n in
        let k_max := Nat.min (kk + Z.to_nat BS) n in
        let j_max := Nat.min (jj + Z.to_nat BS) n in
        for_each (range2 ii i_max) C (λ C i,
          Ci ← getitem C i; Ai ← getitem A i;
          Ci ← for_each (range2 kk k_max) Ci (λ Ci k,
            aik ← getitem Ai k;
            Bk ← getitem B k;
            for_each (range2 jj j_max) Ci (λ Ci j,
              cij ← getitem Ci j;
              bkj ← getitem Bk j;
              setitem Ci j (fadd cij (fmul aik bkj))));
          setitem C i Ci)))).

(** ** Sparse kernel (Stage 2) *)

Definition spmm_csr_dense (row_ptr col_idx : list Z) (vals : list F) (B : matrix)
  : res matrix :=
  B0 ← getitem B 0;
  let n := length B0 in
  let m := (Z.of_nat (length row_ptr) - 1)%Z in
  let C := zeros (Z.to_nat m) n in
  for_each (range (Z.to_nat m)) C (λ C i,
    start ← getitem row_ptr i; end_ ← getitem row_ptr (i + 1);
    Ci ← getitem C i;
    Ci ← for_each (rangeZ start end_) Ci (λ Ci p,
      k ← getitemZ col_idx p;
      aik ← getitemZ vals p;
      Bk ← getitemZ B k;
      for_each (range n) Ci (λ Ci j,
        cij ← getitem Ci j;
        bkj ← getitem Bk j;
        setitem Ci j (fadd cij (fmul aik bkj))));
    setitem C i Ci).

(** ** Work partitioner (Stage 3, [mm_opt_par.py]) *)

Definition worker_chunk (args : matrix * matrix * Z) : res (Z * matrix) :=
  let '(A_chunk, B, start_i) := args in
  let n := length B in
  C_chunk ← for_each (enumerate A_chunk) [] (λ C_chunk '(idx, Ai),
    let Ci := replicate n f0 in
    Ci ← for_each (range n) Ci (λ Ci k,
      aik ← getitem Ai k;
      Bk ← getitem B k;
      for_each (range n) Ci (λ Ci j,
        cij ← getitem Ci j;
        bkj ← getitem Bk j;
        setitem Ci j (fadd cij (fmul aik bkj))));
    Ok (C_chunk ++ [Ci]));
  Ok (start_i, C_chunk).

(** The task list built by the first loop of [parallel_mul]. *)
Definition make_tasks (A B : matrix) (p chunk : Z) : list (matrix * matrix * Z) :=
  let n := Z.of_nat (length A) in
  (λ t : Z,
     let i0 := (t * chunk)%Z in
     let i1 := if decide (t = p - 1)%Z then n else ((t + 1) * chunk)%Z in
     (slice A i0 i1, B, i0)) <$> rangeZ 0 p.

(** [ex.map] hands the results back in task order; a worker's exception is
    raised in the parent. *)
Definition parallel_mul (A B : matrix) (p : Z) : res matrix :=
  let n := length A in
  chunk ← floordiv (Z.of_nat n) p;
  let tasks := make_tasks A B p chunk in
  let C := zeros n n in
  _ ← ProcessPoolExecutor p;
  results ← mapM worker_chunk tasks;
  for_each results C (λ C '(start_i, C_chunk),
    for_each (enumerate C_chunk) C (λ C '(off, row),
      setitemZ C (start_i + Z.of_nat off) row)).

(** ** Matrix generators *)

(** [[rnd.random() for _ in range(n)]] *)
Fixpoint draw_row (n : nat) (rnd : rng) : list F * rng :=
  match n with
  | O => ([], rnd)
  | S n' => let '(x, rnd) := rnd_random rnd in
            let '(xs, rnd) := draw_row n' rnd in
            (x :: xs, rnd)
  end.

(** [[[rnd.random() for _ in range(n)] for __ in range(m)]] *)
Fixpoint draw_rows (m n : nat) (rnd : rng) : matrix * rng :=
  match m with
  | O => ([], rnd)
  | S m' => let '(r, rnd) := draw_row n rnd in
            let '(rs, rnd) := draw_rows m' n rnd in
            (r :: rs, rnd)
  end.

(** Stage 2 *)
Definition gen_dense (n : Z) (seed : Z) : matrix :=
  let rnd := Random seed in
  (draw_rows (Z.to_nat n) (Z.to_nat n) rnd).1.

(** Stage 1 *)
Definition gen_matrix (n : Z) (seed : Z) : matrix :=
  let rnd := Random seed in
  (draw_rows (Z.to_nat n) (Z.to_nat n) rnd).1.

(** Stage 3 *)
Definition generate_dense (n : Z) : matrix :=
  let rnd := Random SEED in
  (draw_rows (Z.to_nat n) (Z.to_nat n) rnd).1.

(** [rnd.sample(range(n), k)] *)
Definition sample (rnd : rng) (n k : Z) : res (list Z * rng) :=
  if decide (0 ≤ k ≤ Z.max 0 n)%Z
  then Ok (rnd_sample rnd (Z.to_nat n) (Z.to_nat k))
  else Raise ValueError.

Record csr_acc : Type := CsrAcc {
  acc_rnd : rng;
  acc_row_ptr : list Z;
  acc_col_idx : list Z;
  acc_vals : list F;
}.

(** The inner loop of [gen_sparse_csr]:
    [for j in cols: col_idx.append(j); vals.append(rnd.random())]. *)
Definition emit_cols (st : csr_acc) (cols : list Z) : csr_acc :=
  foldl (λ st j,
           let '(v, rnd) := rnd_random (acc_rnd st) in
           CsrAcc rnd (acc_row_ptr st) (acc_col_idx st ++ [j]) (acc_vals st ++ [v]))
        st cols.

Definition gen_sparse_csr (n : Z) (density : float) (seed : Z)
  : res (list Z * list Z * list F) :=
  let rnd := Random seed in
  nn ← float_of_int (n * n);
  nnz_target ← int_of_float (float_mul nn density);
  q ← floordiv nnz_target n;
  let per_row := Z.max 0 q in
  let leftover := (nnz_target - per_row * n)%Z in
  st ← for_each (rangeZ 0 n) (CsrAcc rnd [0%Z] [] []) (λ st i,
    let k := (per_row + (if decide (i < leftover)%Z then 1 else 0))%Z in
    '(cols, rnd) ← (if decide (k ≤ n)%Z then sample (acc_rnd st) n k
                    else Ok (rangeZ 0 n, acc_rnd st));
    let cols := merge_sort Z.le cols in
    let st := emit_cols (CsrAcc rnd (acc_row_ptr st) (acc_col_idx st) (acc_vals st)) cols in
    Ok (CsrAcc (acc_rnd st)
               (acc_row_ptr st ++ [Z.of_nat (length (acc_col_idx st))])
               (acc_col_idx st) (acc_vals st)));
  Ok (acc_row_ptr st, acc_col_idx st, acc_vals st).

(** ** Benchmark drivers

    A driver runs in a world that holds the module-level generator of
    [random] (seeded by [random.seed(BASE_SEED)] in the [__main__] block and
    never drawn from), the number of clock readings taken so far, and a
    log.  The log is ghost state: it records each generator and kernel call
    in program order and is read by no driver. *)

Inductive event : Type :=
  | EvGenerate (n seed : Z)
  | EvGenerateSparse (n : Z) (density : float) (seed : Z)
  | EvMultiply (A B : matrix)
  | EvSpmm (row_ptr col_idx : list Z) (vals : list F) (B : matrix).

Record world : Type := World {
  w_global_rng : rng;
  w_ticks : nat;
  w_log : list event;
}.

Definition M (X : Type) : Type := world → res X * world.

#[global] Instance M_ret : MRet M := λ X x w, (Ok x, w).
#[global] Instance M_bind : MBind M := λ X Y f m w,
  match m w with
  | (Ok x, w') => f x w'
  | (Raise e, w') => (Raise e, w')
  end.

Definition lift {X} (r : res X) : M X := λ w, (r, w).
Definition log (ev : event) : M unit :=
  λ w, (Ok (), World (w_global_rng w) (w_ticks w) (w_log w ++ [ev])).
Definition perf_counter : M Q :=
  λ w, (Ok (clock (w_ticks w)), World (w_global_rng w) (S (w_ticks w)) (w_log w)).
Definition random_seed (s : Z) : M unit :=
  λ w, (Ok (), World (Random s) (w_ticks w) (w_log w)).

Definition elapsed_ms (t0 t1 : Q) : Q := Qmult (Qminus t1 t0) 1000.

(** *** Stage 1, [mm_baseline.py] *)

Definition bench (n repeats : Z) : M Q :=
  times_ms ← for_each (rangeZ 0 repeats) [] (λ times_ms r,
    _ ← log (EvGenerate n (BASE_SEED + r));
    let A := gen_matrix n (BASE_SEED + r) in
    _ ← log (EvGenerate n (BASE_SEED + 1 + r));
    let B := gen_matrix n (BASE_SEED + 1 + r) in
    t0 ← perf_counter;
    _ ← log (EvMultiply A B);
    _ ← lift (matmul_basic A B);
    t1 ← perf_counter;
    mret (times_ms ++ [elapsed_ms t0 t1]));
  lift (mean times_ms).

Definition main1 (sizes : list Z) (repeats : Z) : M (list (Z * Q)) :=
  for_each sizes [] (λ rows n,
    avg_ms ← bench n repeats;
    mret (rows ++ [(n, avg_ms)])).

Definition program1 (sizes : list Z) (repeats : Z) : M (list (Z * Q)) :=
  _ ← random_seed BASE_SEED;
  main1 sizes repeats.

(** *** Stage 2, [mm_opt.py] *)

Definition run_once (n : Z) (a : algo) (BS : Z) (density : float) : M Q :=
  match a with
  | Sparse =>
      _ ← log (EvGenerateSparse n density BASE_SEED);
      '(row_ptr, col_idx, vals) ← lift (gen_sparse_csr n density BASE_SEED);
      _ ← log (EvGenerate n (BASE_SEED + 1));
      let B := gen_dense n (BASE_SEED + 1) in
      t0 ← perf_counter;
      _ ← log (EvSpmm row_ptr col_idx vals B);
      _ ← lift (spmm_csr_dense row_ptr col_idx vals B);
      t1 ← perf_counter;
      mret (elapsed_ms t0 t1)
  | Blocked =>
      _ ← log (EvGenerate n BASE_SEED);
      let A := gen_dense n BASE_SEED in
      _ ← log (EvGenerate n (BASE_SEED + 1));
      let B := gen_dense n (BASE_SEED + 1) in
      t0 ← perf_counter;
      _ ← log (EvMultiply A B);
      _ ← lift (matmul_blocked A B BS);
      t1 ← perf_counter;
      mret (elapsed_ms t0 t1)
  | Transposed =>
      _ ← log (EvGenerate n BASE_SEED);
      let A := gen_dense n BASE_SEED in
      _ ← log (EvGenerate n (BASE_SEED + 1));
      let B := gen_dense n (BASE_SEED + 1) in
      t0 ← perf_counter;
      _ ← log (EvMultiply A B);
      _ ← lift (matmul_transposed A B);
      t1 ← perf_counter;
      mret (elapsed_ms t0 t1)
  | Basic =>
      _ ← log (EvGenerate n BASE_SEED);
      let A := gen_dense n BASE_SEED in
      _ ← log (EvGenerate n (BASE_SEED + 1));
      let B := gen_dense n (BASE_SEED + 1) in
      t0 ← perf_counter;
      _ ← log (EvMultiply A B);
      _ ← lift (matmul_basic A B);
      t1 ← perf_counter;
      mret (elapsed_ms t0 t1)
  end.

Definition main2 (sizes : list Z) (a : algo) (repeats block : Z) (density : float)
  : M (list (Z * Q)) :=
  for_each sizes [] (λ rows n,
    times ← mapM (λ _, run_once n a block density) (rangeZ 0 repeats);
    avg_ms ← lift (mean times);
    mret (rows ++ [(n, avg_ms)])).


(** *** Stage 3, [mm_opt_par.py] *)

Record par_row : Type := ParRow {
  row_size : Z;
  row_threads : Z;
  row_repeats : Z;
  row_dt : Q;
  row_speed : Q;
  row_eff : Q;
}.

(** One pass of the loop body of [main]: the baseline table [T1] and the
    rows written so far are the loop state. *)
Definition main3_body (threads repeats : Z) (n : Z)
    (st : gmap Z Q * list par_row) : M (gmap Z Q * list par_row) :=
  let '(T1, rows) := st in
  _ ← log (EvGenerate n SEED);
  let A := generate_dense n in
  _ ← log (EvGenerate n SEED);
  let B := generate_dense n in
  t0 ← perf_counter;
  _ ← log (EvMultiply A B);
  _ ← lift (parallel_mul A B threads);
  t1 ← perf_counter;
  let dt := elapsed_ms t0 t1 in
  let T1 := if decide (threads = 1)%Z then <[n := dt]> T1 else T1 in
  speed ← (if decide (threads = 1)%Z then mret 1%Q
           else match T1 !! n with
                | Some base => lift (truediv base dt)
                | None => mret 1%Q
                end);
  eff ← lift (truediv speed (inject_Z threads));
  mret (T1, rows ++ [ParRow n threads repeats dt speed eff]).

Definition main3 (sizes : list Z) (threads repeats : Z) : M (list par_row) :=
  st ← for_each sizes (∅, []) (λ st n,
    for_each (rangeZ 0 repeats) st (λ st r,
      main3_body threads repeats n st));
  mret st.2.

(** ** Reference product

    [dot_from Ai B j ks x] is [x] after [s += Ai[k] * B[k][j]] for [k] in
    [ks], in that order; reads outside a list give [f0]. *)

Definition rget (r : list F) (j : nat) : F := default f0 (r !! j).
Definition mrow (A : matrix) (i : nat) : list F := default [] (A !! i).
Definition mget (A : matrix) (i j : nat) : F := rget (mrow A i) j.

Definition dot_from (Ai : list F) (B : matrix) (j : nat) (ks : list nat) (x : F) : F :=
  foldl (λ s k, fadd s (fmul (rget Ai k) (mget B k j))) x ks.

Definition row_product (B : matrix) (n : nat) (Ai : list F) : list F :=
  (λ j, dot_from Ai B j (seq 0 n) f0) <$> seq 0 n.

Definition mat_product (A B : matrix) : matrix :=
  row_product B (length A) <$> A.

(** [shape n m A]: [A] has [n] rows of [m] entries each. *)
Definition shape (n m : nat) (A : matrix) : Prop :=
  length A = n ∧ Forall (λ r, length r = m) A.

(** ** Vocabulary of the specifications *)

Definition transpose (n : nat) (B : matrix) : matrix :=
  (λ i, (λ j, mget B j i) <$> seq 0 n) <$> seq 0 n.

(** The chunk of worker [t] out of [pn], for rows of [A] cut every [c]. *)
Definition chunk_len (n pn c t : nat) : nat :=
  if decide (t = pn - 1) then n - t * c else c.

Definition chunk_of (A : matrix) (pn c t : nat) : matrix :=
  take (chunk_len (length A) pn c t) (drop (t * c) A).

(** The chunks are consecutive and cover [A]: up to worker [q] they make up
    the first [q * c] rows, and all of [A] once the last worker is in. *)
Definition covered (n pn c q : nat) : nat := if decide (q = pn) then n else q * c.

(** The conditions under which [spmm_csr_dense] cannot index out of range:
    the row pointers stay within [col_idx] and [vals], the column indices
    are row numbers of [B], and no row of [B] is shorter than its first. *)
Definition csr_fits (row_ptr col_idx : list Z) (vals : list F) (B : matrix) : Prop :=
  0 < length row_ptr
  ∧ Forall (λ x, (0 ≤ x ≤ Z.of_nat (length col_idx))%Z
                 ∧ (x ≤ Z.of_nat (length vals))%Z) row_ptr
  ∧ Forall (λ k, (0 ≤ k < Z.of_nat (length B))%Z) col_idx
  ∧ Forall (λ r, length (mrow B 0) ≤ length r) B.

(** The target computed at the head of [gen_sparse_csr],
    [int(n*n*density)], and what is derived from a target [T]. *)
Definition nnz_target (n : Z) (density : float) : res Z :=
  nn ← float_of_int (n * n); int_of_float (float_mul nn density).

Definition per_row (n T : Z) : Z := Z.max 0 (T / n).

Definition leftover (n T : Z) : Z := (T - per_row n T * n)%Z.




(** The densities in (0, 1], the finite densities that are zero or
    negative, and the finite densities, by their representation; lemmas
    [unit_density_value] and [nonpos_density_value] give them by value. *)
Definition unit_density (d : float) : Prop :=
  match d with
  | S754_finite false m e => (e ≤ 0)%Z ∧ (Z.pos m ≤ 2 ^ (- e))%Z
  | _ => False
  end.

Definition nonpos_density (d : float) : Prop :=
  match d with
  | S754_zero _ | S754_finite true _ _ => True
  | _ => False
  end.

Definition finite_density (d : float) : Prop :=
  match d with
  | S754_zero _ | S754_finite _ _ _ => True
  | _ => False
  end.






(** The generator after [k] draws, and the value of draw number [k]. *)
Definition rnd_iter (k : nat) (rnd : rng) : rng :=
  Nat.iter k (λ r, (rnd_random r).2) rnd.

Definition nth_random (rnd : rng) (k : nat) : F := (rnd_random (rnd_iter k rnd)).1.

(** The [n] by [n] matrix filled row by row from the draws of [rnd]. *)
Definition dense_of_stream (rnd : rng) (n : nat) : matrix :=
  (λ i, (λ j, nth_random rnd (i * n + j)) <$> seq 0 n) <$> seq 0 n.

(** The generator and kernel calls of one [run_once] with a dense
    algorithm: they do not depend on the repetition. *)
Definition dense_events (n : Z) : list event :=
  [EvGenerate n BASE_SEED; EvGenerate n (BASE_SEED + 1);
   EvMultiply (gen_dense n BASE_SEED) (gen_dense n (BASE_SEED + 1))].

Definition dense_kernel (a : algo) (BS : Z) (A B : matrix) : res matrix :=
  match a with
  | Blocked => matmul_blocked A B BS
  | Transposed => matmul_transposed A B
  | _ => matmul_basic A B
  end.

Definition par_events (n : Z) : list event :=
  [EvGenerate n SEED; EvGenerate n SEED;
   EvMultiply (generate_dense n) (generate_dense n)].

(** The Stage 1 driver, for comparison: repetition [r] generates its
    operands from the seeds [BASE_SEED + r] and [BASE_SEED + 1 + r]. *)
Definition bench_events (n r : Z) : list event :=
  [EvGenerate n (BASE_SEED + r); EvGenerate n (BASE_SEED + 1 + r);
   EvMultiply (gen_matrix n (BASE_SEED + r)) (gen_matrix n (BASE_SEED + 1 + r))].

(** What a computation may raise, and what it returns when it returns. *)
Definition raises_only {X} (P : exn → Prop) (r : res X) : Prop :=
  ∀ e, r = Raise e → P e.
Definition returns {X} (P : X → Prop) (r : res X) : Prop :=
  ∀ x, r = Ok x → P x.

(** The operands on which the dense kernels stay within bounds, for
    [n = len(A)]: every row of [A] has [n] entries or more, and (unless [A]
    is empty) [B] has [n] rows or more, the first [n] of which have [n]
    entries or more. *)
Definition dense_fits (A B : matrix) : Prop :=
  Forall (λ r, length A ≤ length r) A
  ∧ (0 < length A →
     length A ≤ length B ∧ Forall (λ r, length A ≤ length r) (take (length A) B)).

(** The list accesses a dense kernel has made when it returns. *)
Definition dense_reads (A B : matrix) : Prop :=
  ∀ i k j, i < length A → k < length A → j < length A →
    ∃ Ai Bk, A !! i = Some Ai ∧ k < length Ai ∧ B !! k = Some Bk ∧ j < length Bk.

(** [covers n A]: the leading [n] by [n] block of [A] exists. *)
Definition covers (n : nat) (A : matrix) : Prop :=
  n ≤ length A ∧ ∀ i, i < n → n ≤ length (mrow A i).

(** The sparse product, nonzero by nonzero: [sp_dot col_idx vals B j ps x]
    is [x] after [s += vals[p] * B[col_idx[p]][j]] for [p] in [ps], in that
    order; row [i] takes the positions from [row_ptr[i]] up to
    [row_ptr[i+1]]. *)
Definition zget (l : list Z) (i : nat) : Z := default 0%Z (l !! i).

Definition sp_dot (col_idx : list Z) (vals : list F) (B : matrix) (j : nat)
    (ps : list Z) (x : F) : F :=
  foldl (λ s p, fadd s (fmul (rget vals (Z.to_nat p))
                             (mget B (Z.to_nat (zget col_idx (Z.to_nat p))) j))) x ps.

Definition sp_row (row_ptr col_idx : list Z) (vals : list F) (B : matrix)
    (n i : nat) : list F :=
  (λ j, sp_dot col_idx vals B j (rangeZ (zget row_ptr i) (zget row_ptr (i + 1))) f0)
  <$> seq 0 n.

Definition sp_product (row_ptr col_idx : list Z) (vals : list F) (B : matrix) : matrix :=
  sp_row row_ptr col_idx vals B (length (mrow B 0)) <$> seq 0 (length row_ptr - 1).

(** The elapsed time of repetition [r] when the first repetition starts at
    clock reading [t] (every repetition reads the clock twice), the times of
    [R] consecutive repetitions, and their average. *)
Definition window_ms (t r : nat) : Q :=
  elapsed_ms (clock (t + 2 * r)) (clock (S (t + 2 * r))).

Definition windows_ms (t R : nat) : list Q := window_ms t <$> seq 0 R.

Definition avg_ms (t R : nat) : Q :=
  Qdiv (foldl Qplus 0%Q (windows_ms t R)) (inject_Z (Z.of_nat R)).

(** The rows a Stage 1 or Stage 2 driver returns: one per size, in the
    order of the sizes, each with the average of its own [R] repetitions. *)
Definition avg_rows (t R : nat) (sizes : list Z) : list (Z * Q) :=
  imap (λ s n, (n, avg_ms (t + s * (2 * R)) R)) sizes.

(** The rows the Stage 3 driver returns when no baseline is ever read: for
    each size, in order, one row per repetition with speedup 1. *)
Definition par_rows (t R : nat) (threads repeats : Z) (sizes : list Z) : list par_row :=
  concat (imap (λ s n,
    (λ r, ParRow n threads repeats (window_ms (t + s * (2 * R)) r) 1%Q
                 (Qdiv 1 (inject_Z threads))) <$> seq 0 R) sizes).

(** The CSR form of a matrix that stores all its [n] by [n] entries. *)
Definition csr_of_full (n : nat) (A : matrix) : list Z * list Z * list F :=
  ((λ i, Z.of_nat (i * n)) <$> seq 0 (S n),
   concat (replicate n (rangeZ 0 (Z.of_nat n))),
   concat A).

(** The loop of the Stage 3 [main], with the table of baselines it ends
    with. *)
Definition main3_loop (sizes : list Z) (threads repeats : Z)
  : M (gmap Z Q * list par_row) :=
  for_each sizes (∅, []) (λ st n,
    for_each (rangeZ 0 repeats) st (λ st r,
      main3_body threads repeats n st)).

(** ** Loops in the error monad *)

Lemma bind_Ok {X Y} (r : res X) (f : X → res Y) x :
  r = Ok x → (r ≫= f) = f x.
Proof. by intros ->. Qed.

Lemma for_each_ind {St X} (Inv : nat → St → Prop) (xs : list X)
    (body : St → X → res St) (s0 : St) :
  Inv 0 s0 →
  (∀ q x s, xs !! q = Some x → Inv q s → ∃ s', body s x = Ok s' ∧ Inv (S q) s') →
  ∃ s', for_each xs s0 body = Ok s' ∧ Inv (length xs) s'.
Proof.
  revert Inv s0. induction xs as [|x xs IH]; intros Inv s0 H0 Hstep.
  - by exists s0.
  - destruct (Hstep 0 x s0 eq_refl H0) as (s1 & Hb & H1).
    destruct (IH (λ q, Inv (S q)) s1 H1) as (s' & Hf & Hs').
    { intros q y s Hq. by apply Hstep. }
    exists s'. split; [|done]. simpl. by rewrite Hb.
Qed.

Lemma for_each_seq_ind {St} (Inv : nat → St → Prop) (lo len : nat)
    (body : St → nat → res St) (s0 : St) :
  Inv lo s0 →
  (∀ i s, lo ≤ i < lo + len → Inv i s → ∃ s', body s i = Ok s' ∧ Inv (S i) s') →
  ∃ s', for_each (seq lo len) s0 body = Ok s' ∧ Inv (lo + len) s'.
Proof.
  intros H0 Hstep.
  destruct (for_each_ind (λ q, Inv (lo + q)) (seq lo len) body s0) as (s' & Hf & Hs').
  - by rewrite Nat.add_0_r.
  - intros q x s Hq Hi. apply lookup_seq in Hq as [-> Hq].
    destruct (Hstep (lo + q) s) as (s' & ? & ?); [lia|done|].
    exists s'. split; [done|]. by rewrite Nat.add_succ_r.
  - exists s'. by rewrite length_seq in Hs'.
Qed.

Lemma getitem_Ok {A} (l : list A) i x : l !! i = Some x → getitem l i = Ok x.
Proof. unfold getitem. by intros ->. Qed.

Lemma getitem_lt {A} (l : list A) i :
  i < length l → ∃ x, l !! i = Some x ∧ getitem l i = Ok x.
Proof.
  intros Hi. destruct (lookup_lt_is_Some_2 l i Hi) as [x Hx].
  exists x. split; [done|]. by apply getitem_Ok.
Qed.

Lemma setitem_Ok {A} (l : list A) i x : i < length l → setitem l i x = Ok (<[i := x]> l).
Proof. intros Hi. unfold setitem. by rewrite decide_True. Qed.

(** ** Entries of rows and matrices *)

Lemma rget_lookup (r : list F) j x : r !! j = Some x → rget r j = x.
Proof. unfold rget. by intros ->. Qed.

Lemma rget_insert (r : list F) j j' x :
  j < length r → rget (<[j := x]> r) j' = if decide (j' = j) then x else rget r j'.
Proof.
  intros Hj. unfold rget. case_decide as Hd.
  - subst. by rewrite list_lookup_insert_eq.
  - by rewrite list_lookup_insert_ne.
Qed.

Lemma list_eq_rget (r r' : list F) :
  length r = length r' → (∀ j, j < length r → rget r j = rget r' j) → r = r'.
Proof.
  intros Hlen Hget. apply list_eq. intros j.
  destruct (decide (j < length r)) as [Hj|Hj].
  - destruct (lookup_lt_is_Some_2 r j Hj) as [x Hx].
    destruct (lookup_lt_is_Some_2 r' j ltac:(lia)) as [x' Hx'].
    specialize (Hget j Hj). rewrite (rget_lookup _ _ _ Hx), (rget_lookup _ _ _ Hx') in Hget.
    congruence.
  - rewrite !lookup_ge_None_2; [done|lia..].
Qed.

Lemma mrow_lookup (A : matrix) i r : A !! i = Some r → mrow A i = r.
Proof. unfold mrow. by intros ->. Qed.

Lemma shape_row n m (A : matrix) i r : shape n m A → A !! i = Some r → length r = m.
Proof. intros [_ HA] Hi. by eapply (Forall_lookup_1 _ _ _ _ HA). Qed.

Lemma shape_mrow n m (A : matrix) i : shape n m A → i < n → length (mrow A i) = m.
Proof.
  intros HA Hi. destruct (lookup_lt_is_Some_2 A i) as [r Hr]; [destruct HA; lia|].
  rewrite (mrow_lookup _ _ _ Hr). by eapply shape_row.
Qed.

Lemma shape_insert n m (A : matrix) i r :
  shape n m A → length r = m → shape n m (<[i := r]> A).
Proof.
  intros [Hn HA] Hr. split; [by rewrite length_insert|].
  destruct (decide (i < length A)) as [Hi|Hi].
  - by apply Forall_insert.
  - by rewrite list_insert_ge by lia.
Qed.

Lemma mget_insert (A : matrix) i i' j r :
  i < length A → mget (<[i := r]> A) i' j = if decide (i' = i) then rget r j else mget A i' j.
Proof.
  intros Hi. unfold mget, mrow. case_decide as Hd.
  - subst. by rewrite list_lookup_insert_eq.
  - by rewrite list_lookup_insert_ne.
Qed.

Lemma matrix_eq_mget n m (A A' : matrix) :
  shape n m A → shape n m A' →
  (∀ i j, i < n → j < m → mget A i j = mget A' i j) → A = A'.
Proof.
  intros HA HA' Hget. apply list_eq. intros i.
  destruct (decide (i < n)) as [Hi|Hi].
  - destruct (lookup_lt_is_Some_2 A i) as [r Hr]; [destruct HA; lia|].
    destruct (lookup_lt_is_Some_2 A' i) as [r' Hr']; [destruct HA'; lia|].
    rewrite Hr, Hr'. f_equal. apply list_eq_rget.
    + rewrite (shape_row _ _ _ _ _ HA Hr). by rewrite (shape_row _ _ _ _ _ HA' Hr').
    + intros j Hj. rewrite (shape_row _ _ _ _ _ HA Hr) in Hj.
      specialize (Hget i j Hi Hj). unfold mget in Hget.
      by rewrite (mrow_lookup _ _ _ Hr), (mrow_lookup _ _ _ Hr') in Hget.
  - destruct HA, HA'. rewrite !lookup_ge_None_2; [done|lia..].
Qed.

Lemma shape_zeros n m : shape n m (zeros n m).
Proof.
  split; [apply length_replicate|].
  apply Forall_replicate. apply length_replicate.
Qed.

Lemma rget_replicate m j : rget (replicate m f0) j = f0.
Proof.
  unfold rget. destruct (decide (j < m)).
  - by rewrite lookup_replicate_2.
  - by rewrite lookup_ge_None_2 by (rewrite length_replicate; lia).
Qed.

Lemma mget_zeros n m i j : mget (zeros n m) i j = f0.
Proof.
  unfold mget, mrow, zeros. destruct (decide (i < n)).
  - rewrite lookup_replicate_2 by done. apply rget_replicate.
  - by rewrite lookup_ge_None_2 by (rewrite length_replicate; lia).
Qed.

Lemma getitem_rget (r : list F) j : j < length r → getitem r j = Ok (rget r j).
Proof.
  intros Hj. destruct (getitem_lt r j Hj) as (x & Hx & ->).
  by rewrite (rget_lookup _ _ _ Hx).
Qed.

Lemma getitem_mrow (A : matrix) i : i < length A → getitem A i = Ok (mrow A i).
Proof.
  intros Hi. destruct (getitem_lt A i Hi) as (x & Hx & ->).
  by rewrite (mrow_lookup _ _ _ Hx).
Qed.

Lemma dot_from_snoc Ai B j ks k x :
  dot_from Ai B j (ks ++ [k]) x
  = fadd (dot_from Ai B j ks x) (fmul (rget Ai k) (mget B k j)).
Proof. unfold dot_from. by rewrite foldl_app. Qed.

Lemma dot_from_app Ai B j ks ks' x :
  dot_from Ai B j (ks ++ ks') x = dot_from Ai B j ks' (dot_from Ai B j ks x).
Proof. unfold dot_from. by rewrite foldl_app. Qed.

(** ** The accumulation loops shared by the kernels *)

(** [for j in range(jlo, jlo+jlen): Ci[j] += aik * Bk[j]] *)
Lemma axpy_loop (aik : F) (Bk Ci : list F) (jlo jlen : nat) :
  jlo + jlen ≤ length Ci → jlo + jlen ≤ length Bk →
  ∃ Ci', for_each (seq jlo jlen) Ci (λ Ci j,
           cij ← getitem Ci j;
           bkj ← getitem Bk j;
           setitem Ci j (fadd cij (fmul aik bkj))) = Ok Ci'
       ∧ length Ci' = length Ci
       ∧ ∀ j, rget Ci' j = if decide (jlo ≤ j < jlo + jlen)
                           then fadd (rget Ci j) (fmul aik (rget Bk j))
                           else rget Ci j.
Proof.
  intros HCi HBk.
  destruct (for_each_seq_ind (λ j' Ci',
    length Ci' = length Ci
    ∧ ∀ j, rget Ci' j = if decide (jlo ≤ j < j')
                        then fadd (rget Ci j) (fmul aik (rget Bk j))
                        else rget Ci j) jlo jlen
    (λ Ci j,
       cij ← getitem Ci j;
       bkj ← getitem Bk j;
       setitem Ci j (fadd cij (fmul aik bkj))) Ci) as (Ci' & Hrun & Hlen & Hget);
    [| |by exists Ci'].
  - split; [done|]. intros j. by rewrite decide_False by lia.
  - intros i s Hi [Hlen Hget].
    rewrite (bind_Ok _ _ _ (getitem_rget s i ltac:(lia))).
    rewrite (bind_Ok _ _ _ (getitem_rget Bk i ltac:(lia))).
    rewrite setitem_Ok by lia.
    eexists. split; [done|]. split; [by rewrite length_insert|].
    intros j. rewrite rget_insert by lia.
    destruct (decide (j = i)) as [->|Hne].
    + rewrite decide_True by lia. rewrite Hget. by rewrite decide_False by lia.
    + rewrite Hget. destruct (decide (jlo ≤ j < i)).
      * by rewrite decide_True by lia.
      * by rewrite decide_False by lia.
Qed.

(** [for k in range(klo, klo+klen): aik = Ai[k]; Bk = B[k];
      for j in range(jlo, jlo+jlen): Ci[j] += aik * Bk[j]] *)
Lemma row_loop (Ai : list F) (B : matrix) (Ci : list F) (klo klen jlo jlen : nat) :
  klo + klen ≤ length Ai → klo + klen ≤ length B →
  (∀ k, klo ≤ k < klo + klen → jlo + jlen ≤ length (mrow B k)) →
  jlo + jlen ≤ length Ci →
  ∃ Ci', for_each (seq klo klen) Ci (λ Ci k,
           aik ← getitem Ai k;
           Bk ← getitem B k;
           for_each (seq jlo jlen) Ci (λ Ci j,
             cij ← getitem Ci j;
             bkj ← getitem Bk j;
             setitem Ci j (fadd cij (fmul aik bkj)))) = Ok Ci'
       ∧ length Ci' = length Ci
       ∧ ∀ j, rget Ci' j = if decide (jlo ≤ j < jlo + jlen)
                           then dot_from Ai B j (seq klo klen) (rget Ci j)
                           else rget Ci j.
Proof.
  intros HAi HB HBk HCi.
  destruct (for_each_seq_ind (λ k' Ci',
    length Ci' = length Ci
    ∧ ∀ j, rget Ci' j = if decide (jlo ≤ j < jlo + jlen)
                        then dot_from Ai B j (seq klo (k' - klo)) (rget Ci j)
                        else rget Ci j) klo klen
    (λ Ci k,
       aik ← getitem Ai k;
       Bk ← getitem B k;
       for_each (seq jlo jlen) Ci (λ Ci j,
         cij ← getitem Ci j;
         bkj ← getitem Bk j;
         setitem Ci j (fadd cij (fmul aik bkj)))) Ci) as (Ci' & Hrun & Hlen & Hget).
  - split; [done|]. intros j. rewrite Nat.sub_diag. simpl. by case_decide.
  - intros k s Hk [Hlen Hget].
    rewrite (bind_Ok _ _ _ (getitem_rget Ai k ltac:(lia))).
    rewrite (bind_Ok _ _ _ (getitem_mrow B k ltac:(lia))).
    destruct (axpy_loop (rget Ai k) (mrow B k) s jlo jlen) as (s' & -> & Hlen' & Hget');
      [lia|by apply HBk|].
    exists s'. split; [done|]. split; [lia|].
    intros j. rewrite Hget', Hget.
    replace (S k - klo) with (S (k - klo)) by lia.
    rewrite seq_S, dot_from_snoc. replace (klo + (k - klo)) with k by lia.
    by case_decide.
  - exists Ci'. split; [done|]. split; [done|].
    intros j. rewrite Hget. by replace (klo + klen - klo) with klen by lia.
Qed.

Lemma length_row_product B n Ai : length (row_product B n Ai) = n.
Proof. unfold row_product. by rewrite length_fmap, length_seq. Qed.

Lemma rget_row_product B n Ai j :
  j < n → rget (row_product B n Ai) j = dot_from Ai B j (seq 0 n) f0.
Proof.
  intros Hj. apply rget_lookup. unfold row_product.
  rewrite list_lookup_fmap, lookup_seq_lt by done. done.
Qed.

Lemma shape_mat_product A B : shape (length A) (length A) (mat_product A B).
Proof.
  split; [by unfold mat_product; rewrite length_fmap|].
  unfold mat_product. apply Forall_fmap, Forall_forall. intros r _. simpl.
  apply length_row_product.
Qed.

Lemma mget_mat_product A B i j :
  i < length A → j < length A →
  mget (mat_product A B) i j = dot_from (mrow A i) B j (seq 0 (length A)) f0.
Proof.
  intros Hi Hj. destruct (lookup_lt_is_Some_2 A i Hi) as [r Hr].
  unfold mget. rewrite (mrow_lookup A i r Hr).
  rewrite (mrow_lookup (mat_product A B) i (row_product B (length A) r)).
  - by apply rget_row_product.
  - unfold mat_product. by rewrite list_lookup_fmap, Hr.
Qed.

(** One full output row, as computed by [matmul_basic] and [worker_chunk]. *)
Lemma row_full_loop (Ai : list F) (B : matrix) (n : nat) :
  length Ai = n → shape n n B →
  for_each (seq 0 n) (replicate n f0) (λ Ci k,
    aik ← getitem Ai k;
    Bk ← getitem B k;
    for_each (seq 0 n) Ci (λ Ci j,
      cij ← getitem Ci j;
      bkj ← getitem Bk j;
      setitem Ci j (fadd cij (fmul aik bkj)))) = Ok (row_product B n Ai).
Proof.
  intros HAi HB.
  destruct (row_loop Ai B (replicate n f0) 0 n 0 n) as (Ci' & -> & Hlen & Hget).
  - lia.
  - destruct HB. lia.
  - intros k Hk. rewrite (shape_mrow n n) by (done || lia). lia.
  - rewrite length_replicate. lia.
  - f_equal. rewrite length_replicate in Hlen. apply list_eq_rget.
    + by rewrite length_row_product.
    + intros j Hj. rewrite Hget, decide_True by lia.
      rewrite rget_replicate. by rewrite rget_row_product by lia.
Qed.

(** The outer row loop of [matmul_basic] and [matmul_transposed]: row [i] of
    the zero matrix is handed to the row computation and written back. *)
Lemma rows_loop (rowf : list F → list F → res (list F)) (g : list F → list F)
    (n : nat) (A : matrix) :
  length A = n →
  (∀ Ai, Ai ∈ A → rowf Ai (replicate n f0) = Ok (g Ai)) →
  for_each (seq 0 n) (zeros n n) (λ (C : matrix) i,
    Ai ← getitem A i; Ci ← getitem C i;
    Ci ← rowf Ai Ci;
    setitem C i Ci) = Ok (g <$> A).
Proof.
  intros Hn Hrow.
  destruct (for_each_seq_ind (λ q (C : matrix),
    C = (g <$> take q A) ++ replicate (n - q) (replicate n f0)) 0 n
    (λ (C : matrix) i,
      Ai ← getitem A i; Ci ← getitem C i;
      Ci ← rowf Ai Ci;
      setitem C i Ci) (zeros n n)) as (C' & -> & HC').
  - by rewrite take_0, Nat.sub_0_r.
  - intros i C Hi ->.
    destruct (lookup_lt_is_Some_2 A i ltac:(lia)) as [Ai HAi].
    rewrite (bind_Ok _ _ _ (getitem_Ok _ _ _ HAi)).
    assert (Hlen : length (g <$> take i A) = i).
    { rewrite length_fmap, length_take. lia. }
    replace (n - i) with (S (n - S i)) by lia.
    erewrite (bind_Ok (getitem _ i)); last first.
    { apply getitem_Ok. rewrite lookup_app_r by lia. by rewrite Hlen, Nat.sub_diag. }
    rewrite Hrow by (by eapply list_elem_of_lookup_2).
    simpl. rewrite setitem_Ok by (rewrite length_app, Hlen; simpl; lia).
    eexists. split; [done|].
    rewrite insert_app_r_alt by lia. rewrite Hlen, Nat.sub_diag. simpl.
    rewrite (take_S_r _ _ _ HAi), fmap_app, <- app_assoc. done.
  - f_equal. rewrite HC'. simpl. rewrite Nat.sub_diag, app_nil_r.
    by rewrite take_ge by lia.
Qed.

(** ** The naive kernel computes the reference product *)

Lemma matmul_basic_spec (n : nat) (A B : matrix) :
  shape n n A → shape n n B → matmul_basic A B = Ok (mat_product A B).
Proof.
  intros [Hn HA] HB. unfold matmul_basic, mat_product, range. rewrite Hn.
  apply (rows_loop (λ Ai Ci,
    for_each (seq 0 n) Ci (λ Ci k,
      aik ← getitem Ai k;
      Bk ← getitem B k;
      for_each (seq 0 n) Ci (λ Ci j,
        cij ← getitem Ci j;
        bkj ← getitem Bk j;
        setitem Ci j (fadd cij (fmul aik bkj))))) (row_product B n) n A Hn).
  intros Ai HAi. apply row_full_loop; [|done].
  by eapply (proj1 (Forall_forall _ _) HA).
Qed.

(** ** The transposed kernel computes the same sums in the same order *)

Lemma mapM_Ok {X Y} (f : X → res Y) (g : X → Y) (xs : list X) :
  (∀ x, x ∈ xs → f x = Ok (g x)) → mapM f xs = Ok (g <$> xs).
Proof.
  induction xs as [|x xs IH]; intros Hf; [done|].
  simpl. rewrite Hf by apply list_elem_of_here. simpl.
  rewrite IH; [done|]. intros y Hy. apply Hf. by apply list_elem_of_further.
Qed.


Lemma transpose_Ok (n : nat) (B : matrix) :
  shape n n B →
  mapM (λ i, mapM (λ j, Bj ← getitem B j; getitem Bj i) (seq 0 n)) (seq 0 n)
  = Ok (transpose n B).
Proof.
  intros HB. apply mapM_Ok. intros i Hi. apply mapM_Ok. intros j Hj.
  apply elem_of_seq in Hi, Hj.
  rewrite (bind_Ok _ _ _ (getitem_mrow B j ltac:(destruct HB; lia))).
  apply getitem_rget. rewrite (shape_mrow n n) by (done || lia). lia.
Qed.

Lemma mrow_transpose n B j : j < n → mrow (transpose n B) j = (λ k, mget B k j) <$> seq 0 n.
Proof.
  intros Hj. apply mrow_lookup. unfold transpose.
  by rewrite list_lookup_fmap, lookup_seq_lt.
Qed.

Lemma mget_transpose n B j k : j < n → k < n → mget (transpose n B) j k = mget B k j.
Proof.
  intros Hj Hk. unfold mget at 1. rewrite mrow_transpose by done.
  apply rget_lookup. by rewrite list_lookup_fmap, lookup_seq_lt.
Qed.

(** [s = 0.0; for k in range(n): s += Ai[k] * btj[k]] *)
Lemma dot_loop (Ai btj : list F) (B : matrix) (j n : nat) :
  n ≤ length Ai → n ≤ length btj → (∀ k, k < n → rget btj k = mget B k j) →
  for_each (seq 0 n) f0 (λ s k,
    aik ← getitem Ai k;
    bjk ← getitem btj k;
    Ok (fadd s (fmul aik bjk))) = Ok (dot_from Ai B j (seq 0 n) f0).
Proof.
  intros HAi Hbt Hget.
  destruct (for_each_seq_ind (λ k' s, s = dot_from Ai B j (seq 0 k') f0) 0 n
    (λ s k,
      aik ← getitem Ai k;
      bjk ← getitem btj k;
      Ok (fadd s (fmul aik bjk))) f0) as (s' & -> & ->); [done| |done].
  intros k s Hk ->.
  rewrite (bind_Ok _ _ _ (getitem_rget Ai k ltac:(lia))).
  rewrite (bind_Ok _ _ _ (getitem_rget btj k ltac:(lia))).
  eexists. split; [done|]. rewrite seq_S, dot_from_snoc. simpl.
  by rewrite Hget by lia.
Qed.

Lemma matmul_transposed_spec (n : nat) (A B : matrix) :
  shape n n A → shape n n B → matmul_transposed A B = Ok (mat_product A B).
Proof.
  intros [Hn HA] HB. unfold matmul_transposed, mat_product, range. rewrite Hn.
  rewrite (bind_Ok _ _ _ (transpose_Ok n B HB)).
  apply (rows_loop (λ Ai Ci,
    for_each (seq 0 n) Ci (λ Ci j,
      btj ← getitem (transpose n B) j;
      s ← for_each (seq 0 n) f0 (λ s k,
        aik ← getitem Ai k;
        bjk ← getitem btj k;
        Ok (fadd s (fmul aik bjk)));
      setitem Ci j s)) (row_product B n) n A Hn).
  intros Ai HAi.
  assert (HlenAi : length Ai = n) by (by eapply (proj1 (Forall_forall _ _) HA)).
  assert (HlenT : length (transpose n B) = n).
  { unfold transpose. by rewrite length_fmap, length_seq. }
  destruct (for_each_seq_ind (λ j' (Ci : list F),
    length Ci = n
    ∧ ∀ j, rget Ci j = if decide (j < j') then dot_from Ai B j (seq 0 n) f0 else f0) 0 n
    (λ Ci j,
      btj ← getitem (transpose n B) j;
      s ← for_each (seq 0 n) f0 (λ s k,
        aik ← getitem Ai k;
        bjk ← getitem btj k;
        Ok (fadd s (fmul aik bjk)));
      setitem Ci j s) (replicate n f0)) as (Ci' & -> & Hlen & Hget).
  - split; [apply length_replicate|]. intros j. rewrite rget_replicate. by rewrite decide_False by lia.
  - intros j Ci Hj [Hlen Hget].
    rewrite (bind_Ok _ _ _ (getitem_mrow (transpose n B) j ltac:(lia))).
    rewrite (dot_loop Ai _ B j n); [|lia| |].
    + simpl. rewrite setitem_Ok by lia. eexists. split; [done|].
      split; [by rewrite length_insert|].
      intros j'. rewrite rget_insert, Hget by lia.
      destruct (decide (j' = j)) as [->|]; [by rewrite decide_True by lia|].
      destruct (decide (j' < j)); [by rewrite decide_True by lia|].
      by rewrite decide_False by lia.
    + rewrite mrow_transpose by lia. by rewrite length_fmap, length_seq.
    + intros k Hk. apply (mget_transpose n B j k); lia.
  - f_equal. apply list_eq_rget; [by rewrite length_row_product|].
    intros j Hj. rewrite Hget, decide_True by lia. by rewrite rget_row_product by lia.
Qed.

(** ** The blocked kernel

    Every loop level is specified by what it adds to the entries of [C]: for
    a fixed entry [(i, j)] the tiles contribute their [k] ranges in
    ascending order, so the sums are those of the naive kernel, term by
    term. *)

Lemma shape_covers (n : nat) (A : matrix) : shape n n A → covers n A.
Proof.
  intros HA. split; [destruct HA; lia|].
  intros i Hi. by rewrite (shape_mrow n n).
Qed.

Lemma block_count_lt (n bs q : nat) : 0 < bs → q < (n + bs - 1) / bs → q * bs < n.
Proof.
  intros Hbs Hq. pose proof (Nat.div_mod_eq (n + bs - 1) bs) as Hdm.
  pose proof (Nat.mod_upper_bound (n + bs - 1) bs ltac:(lia)). nia.
Qed.

Lemma block_count_ge (n bs : nat) : 0 < bs → n ≤ (n + bs - 1) / bs * bs.
Proof.
  intros Hbs. pose proof (Nat.div_mod_eq (n + bs - 1) bs) as Hdm.
  pose proof (Nat.mod_upper_bound (n + bs - 1) bs ltac:(lia)). nia.
Qed.

Lemma range_step_pos (n : nat) (BS : Z) :
  (0 < BS)%Z →
  range_step n BS
  = Ok ((λ q, q * Z.to_nat BS) <$> seq 0 ((n + Z.to_nat BS - 1) / Z.to_nat BS)).
Proof.
  intros HBS. unfold range_step.
  rewrite decide_False by lia. by rewrite decide_False by lia.
Qed.

(** A loop over [range(0, n, bs)] with an invariant indexed by the number of
    indices already covered. *)
Lemma for_each_blocks {St} (Inv : nat → St → Prop) (n bs : nat)
    (body : St → nat → res St) (s0 : St) :
  0 < bs → Inv 0 s0 →
  (∀ lo s, lo < n → Inv lo s → ∃ s', body s lo = Ok s' ∧ Inv (Nat.min (lo + bs) n) s') →
  ∃ s', for_each ((λ q, q * bs) <$> seq 0 ((n + bs - 1) / bs)) s0 body = Ok s'
        ∧ Inv n s'.
Proof.
  intros Hbs H0 Hstep.
  destruct (for_each_ind (λ q, Inv (Nat.min (q * bs) n))
    ((λ q, q * bs) <$> seq 0 ((n + bs - 1) / bs)) body s0) as (s' & Hrun & Hs').
  - done.
  - intros q x s Hq Hs. rewrite list_lookup_fmap in Hq.
    destruct (seq 0 ((n + bs - 1) / bs) !! q) as [q'|] eqn:Hq'; [|done].
    apply lookup_seq in Hq' as [-> Hlt]. simpl in Hq. injection Hq as <-.
    pose proof (block_count_lt n bs q Hbs Hlt) as Hlo.
    rewrite Nat.min_l in Hs by lia.
    destruct (Hstep (q * bs) s Hlo Hs) as (s' & Hb & Hs').
    exists s'. split; [done|]. by replace (S q * bs) with (q * bs + bs) by lia.
  - exists s'. split; [done|].
    rewrite length_fmap, length_seq in Hs'.
    by rewrite Nat.min_r in Hs' by (by apply block_count_ge).
Qed.

(** The three inner loops: one tile. *)
Lemma tile_loop (n : nat) (A B C : matrix) (ii ilen kk klen jj jlen : nat) :
  covers n A → covers n B → shape n n C →
  ii + ilen ≤ n → kk + klen ≤ n → jj + jlen ≤ n →
  ∃ C' : matrix,
    for_each (seq ii ilen) C (λ (C : matrix) i,
      Ci ← getitem C i; Ai ← getitem A i;
      Ci ← for_each (seq kk klen) Ci (λ Ci k,
        aik ← getitem Ai k;
        Bk ← getitem B k;
        for_each (seq jj jlen) Ci (λ Ci j,
          cij ← getitem Ci j;
          bkj ← getitem Bk j;
          setitem Ci j (fadd cij (fmul aik bkj))));
      setitem C i Ci) = Ok C'
    ∧ shape n n C'
    ∧ ∀ i j, mget C' i j
             = if decide ((ii ≤ i < ii + ilen) ∧ (jj ≤ j < jj + jlen))
               then dot_from (mrow A i) B j (seq kk klen) (mget C i j)
               else mget C i j.
Proof.
  intros HA HB HC Hi Hk Hj.
  destruct (for_each_seq_ind (λ i' (C' : matrix),
    shape n n C'
    ∧ ∀ i j, mget C' i j
             = if decide ((ii ≤ i < i') ∧ (jj ≤ j < jj + jlen))
               then dot_from (mrow A i) B j (seq kk klen) (mget C i j)
               else mget C i j) ii ilen
    (λ (C : matrix) i,
      Ci ← getitem C i; Ai ← getitem A i;
      Ci ← for_each (seq kk klen) Ci (λ Ci k,
        aik ← getitem Ai k;
        Bk ← getitem B k;
        for_each (seq jj jlen) Ci (λ Ci j,
          cij ← getitem Ci j;
          bkj ← getitem Bk j;
          setitem Ci j (fadd cij (fmul aik bkj))));
      setitem C i Ci) C) as (C' & Hrun & HC' & Hget); [| |by exists C'].
  - split; [done|]. intros i j. by rewrite decide_False by lia.
  - intros i C1 Hii [HC1 Hget].
    assert (length C1 = n) by (by destruct HC1).
    destruct HA as [HlenA HrowsA]. destruct HB as [HlenB HrowsB].
    rewrite (bind_Ok _ _ _ (getitem_mrow C1 i ltac:(lia))).
    rewrite (bind_Ok _ _ _ (getitem_mrow A i ltac:(lia))).
    destruct (row_loop (mrow A i) B (mrow C1 i) kk klen jj jlen)
      as (Ci' & -> & Hlen & Hrow).
    + specialize (HrowsA i ltac:(lia)). lia.
    + lia.
    + intros k Hkk. specialize (HrowsB k ltac:(lia)). lia.
    + rewrite (shape_mrow n n) by (done || lia). lia.
    + simpl. rewrite setitem_Ok by lia. eexists. split; [done|].
      split.
      { apply shape_insert; [done|]. rewrite Hlen. apply (shape_mrow n n); [done|lia]. }
      intros i' j. rewrite mget_insert by lia.
      destruct (decide (i' = i)) as [->|Hne].
      * rewrite Hrow. fold (mget C1 i j). rewrite Hget.
        rewrite (decide_False (P := (ii ≤ i < i) ∧ _)) by lia.
        destruct (decide (jj ≤ j < jj + jlen)).
        -- by rewrite decide_True by lia.
        -- by rewrite decide_False by lia.
      * rewrite Hget.
        destruct (decide ((ii ≤ i' < i) ∧ (jj ≤ j < jj + jlen))).
        -- by rewrite decide_True by lia.
        -- by rewrite decide_False by lia.
Qed.

(** The [jj] loop: all column tiles of one [(ii, kk)] pair. *)
Lemma jj_loop (n : nat) (A B C : matrix) (BS : Z) (ii kk : nat) :
  (0 < BS)%Z → covers n A → covers n B → shape n n C → ii < n → kk < n →
  ∃ C' : matrix,
    for_each ((λ q, q * Z.to_nat BS) <$> seq 0 ((n + Z.to_nat BS - 1) / Z.to_nat BS)) C
      (λ (C : matrix) jj,
        let i_max := Nat.min (ii + Z.to_nat BS) n in
        let k_max := Nat.min (kk + Z.to_nat BS) n in
        let j_max := Nat.min (jj + Z.to_nat BS) n in
        for_each (range2 ii i_max) C (λ (C : matrix) i,
          Ci ← getitem C i; Ai ← getitem A i;
          Ci ← for_each (range2 kk k_max) Ci (λ Ci k,
            aik ← getitem Ai k;
            Bk ← getitem B k;
            for_each (range2 jj j_max) Ci (λ Ci j,
              cij ← getitem Ci j;
              bkj ← getitem Bk j;
              setitem Ci j (fadd cij (fmul aik bkj))));
          setitem C i Ci)) = Ok C'
    ∧ shape n n C'
    ∧ ∀ i j, j < n →
        mget C' i j
        = if decide (ii ≤ i < Nat.min (ii + Z.to_nat BS) n)
          then dot_from (mrow A i) B j
                 (seq kk (Nat.min (kk + Z.to_nat BS) n - kk)) (mget C i j)
          else mget C i j.
Proof.
  intros HBS HA HB HC Hii Hkk.
  set (bs := Z.to_nat BS). assert (0 < bs) by lia.
  destruct (for_each_blocks (λ m (C' : matrix),
    shape n n C'
    ∧ ∀ i j, j < n →
        mget C' i j
        = if decide ((ii ≤ i < Nat.min (ii + bs) n) ∧ j < m)
          then dot_from (mrow A i) B j (seq kk (Nat.min (kk + bs) n - kk)) (mget C i j)
          else mget C i j) n bs
    (λ (C : matrix) jj,
        let i_max := Nat.min (ii + bs) n in
        let k_max := Nat.min (kk + bs) n in
        let j_max := Nat.min (jj + bs) n in
        for_each (range2 ii i_max) C (λ (C : matrix) i,
          Ci ← getitem C i; Ai ← getitem A i;
          Ci ← for_each (range2 kk k_max) Ci (λ Ci k,
            aik ← getitem Ai k;
            Bk ← getitem B k;
            for_each (range2 jj j_max) Ci (λ Ci j,
              cij ← getitem Ci j;
              bkj ← getitem Bk j;
              setitem Ci j (fadd cij (fmul aik bkj))));
          setitem C i Ci)) C) as (C' & Hrun & HC' & Hget).
  - done.
  - split; [done|]. intros i j Hj. by rewrite decide_False by lia.
  - intros jj C1 Hjj [HC1 Hget]. cbv zeta. unfold range2.
    destruct (tile_loop n A B C1 ii (Nat.min (ii + bs) n - ii)
                kk (Nat.min (kk + bs) n - kk) jj (Nat.min (jj + bs) n - jj))
      as (C2 & -> & HC2 & Hget2); [done|done|done|lia..|].
    exists C2. split; [done|]. split; [done|].
    intros i j Hj. rewrite Hget2, Hget by done.
    destruct (decide (ii ≤ i < Nat.min (ii + bs) n)) as [Hi|Hi].
    + destruct (decide (jj ≤ j < jj + (Nat.min (jj + bs) n - jj))).
      * rewrite decide_True by lia. rewrite decide_False by lia.
        by rewrite decide_True by lia.
      * rewrite (decide_False (P := _ ∧ (jj ≤ j < _))) by lia.
        destruct (decide (j < jj)).
        -- rewrite decide_True by lia. by rewrite decide_True by lia.
        -- rewrite decide_False by lia. by rewrite decide_False by lia.
    + rewrite (decide_False (P := _ ∧ (jj ≤ j < _))) by lia.
      rewrite decide_False by lia. by rewrite decide_False by lia.
  - exists C'. split; [done|]. split; [done|].
    intros i j Hj. rewrite Hget by done.
    destruct (decide (ii ≤ i < Nat.min (ii + bs) n)).
    + by rewrite decide_True by lia.
    + by rewrite decide_False by lia.
Qed.

(** The [kk] loop: one block of rows against all of [B]. *)
Lemma kk_loop (n : nat) (A B C : matrix) (BS : Z) (ii : nat) :
  (0 < BS)%Z → covers n A → covers n B → shape n n C → ii < n →
  ∃ C' : matrix,
    for_each ((λ q, q * Z.to_nat BS) <$> seq 0 ((n + Z.to_nat BS - 1) / Z.to_nat BS)) C
      (λ (C : matrix) kk,
        jjs ← range_step n BS;
        for_each jjs C (λ (C : matrix) jj,
          let i_max := Nat.min (ii + Z.to_nat BS) n in
          let k_max := Nat.min (kk + Z.to_nat BS) n in
          let j_max := Nat.min (jj + Z.to_nat BS) n in
          for_each (range2 ii i_max) C (λ (C : matrix) i,
            Ci ← getitem C i; Ai ← getitem A i;
            Ci ← for_each (range2 kk k_max) Ci (λ Ci k,
              aik ← getitem Ai k;
              Bk ← getitem B k;
              for_each (range2 jj j_max) Ci (λ Ci j,
                cij ← getitem Ci j;
                bkj ← getitem Bk j;
                setitem Ci j (fadd cij (fmul aik bkj))));
            setitem C i Ci))) = Ok C'
    ∧ shape n n C'
    ∧ ∀ i j, j < n →
        mget C' i j
        = if decide (ii ≤ i < Nat.min (ii + Z.to_nat BS) n)
          then dot_from (mrow A i) B j (seq 0 n) (mget C i j)
          else mget C i j.
Proof.
  intros HBS HA HB HC Hii.
  destruct (for_each_blocks (λ m (C' : matrix),
    shape n n C'
    ∧ ∀ i j, j < n →
        mget C' i j
        = if decide (ii ≤ i < Nat.min (ii + Z.to_nat BS) n)
          then dot_from (mrow A i) B j (seq 0 m) (mget C i j)
          else mget C i j) n (Z.to_nat BS)
      (λ (C : matrix) kk,
        jjs ← range_step n BS;
        for_each jjs C (λ (C : matrix) jj,
          let i_max := Nat.min (ii + Z.to_nat BS) n in
          let k_max := Nat.min (kk + Z.to_nat BS) n in
          let j_max := Nat.min (jj + Z.to_nat BS) n in
          for_each (range2 ii i_max) C (λ (C : matrix) i,
            Ci ← getitem C i; Ai ← getitem A i;
            Ci ← for_each (range2 kk k_max) Ci (λ Ci k,
              aik ← getitem Ai k;
              Bk ← getitem B k;
              for_each (range2 jj j_max) Ci (λ Ci j,
                cij ← getitem Ci j;
                bkj ← getitem Bk j;
                setitem Ci j (fadd cij (fmul aik bkj))));
            setitem C i Ci))) C) as (C' & Hrun & HC' & Hget); [lia| | |by exists C'].
  - split; [done|]. intros i j Hj. simpl. by case_decide.
  - intros kk C1 Hkk [HC1 Hget].
    rewrite (bind_Ok _ _ _ (range_step_pos n BS HBS)).
    destruct (jj_loop n A B C1 BS ii kk) as (C2 & -> & HC2 & Hget2); [done..|].
    exists C2. split; [done|]. split; [done|].
    intros i j Hj. rewrite Hget2, Hget by done.
    case_decide; [|done].
    replace (Nat.min (kk + Z.to_nat BS) n)
      with (kk + (Nat.min (kk + Z.to_nat BS) n - kk)) at 2 by lia.
    by rewrite seq_app, dot_from_app.
Qed.

(** The [ii] loop: the whole product. *)
Lemma ii_loop (n : nat) (A B C : matrix) (BS : Z) :
  (0 < BS)%Z → covers n A → covers n B → shape n n C →
  ∃ C' : matrix,
    for_each ((λ q, q * Z.to_nat BS) <$> seq 0 ((n + Z.to_nat BS - 1) / Z.to_nat BS)) C
      (λ (C : matrix) ii,
        kks ← range_step n BS;
        for_each kks C (λ (C : matrix) kk,
        jjs ← range_step n BS;
        for_each jjs C (λ (C : matrix) jj,
          let i_max := Nat.min (ii + Z.to_nat BS) n in
          let k_max := Nat.min (kk + Z.to_nat BS) n in
          let j_max := Nat.min (jj + Z.to_nat BS) n in
          for_each (range2 ii i_max) C (λ (C : matrix) i,
            Ci ← getitem C i; Ai ← getitem A i;
            Ci ← for_each (range2 kk k_max) Ci (λ Ci k,
              aik ← getitem Ai k;
              Bk ← getitem B k;
              for_each (range2 jj j_max) Ci (λ Ci j,
                cij ← getitem Ci j;
                bkj ← getitem Bk j;
                setitem Ci j (fadd cij (fmul aik bkj))));
            setitem C i Ci)))) = Ok C'
    ∧ shape n n C'
    ∧ ∀ i j, i < n → j < n →
        mget C' i j = dot_from (mrow A i) B j (seq 0 n) (mget C i j).
Proof.
  intros HBS HA HB HC.
  destruct (for_each_blocks (λ m (C' : matrix),
    shape n n C'
    ∧ ∀ i j, j < n →
        mget C' i j
        = if decide (i < m)
          then dot_from (mrow A i) B j (seq 0 n) (mget C i j)
          else mget C i j) n (Z.to_nat BS)
      (λ (C : matrix) ii,
        kks ← range_step n BS;
        for_each kks C (λ (C : matrix) kk,
        jjs ← range_step n BS;
        for_each jjs C (λ (C : matrix) jj,
          let i_max := Nat.min (ii + Z.to_nat BS) n in
          let k_max := Nat.min (kk + Z.to_nat BS) n in
          let j_max := Nat.min (jj + Z.to_nat BS) n in
          for_each (range2 ii i_max) C (λ (C : matrix) i,
            Ci ← getitem C i; Ai ← getitem A i;
            Ci ← for_each (range2 kk k_max) Ci (λ Ci k,
              aik ← getitem Ai k;
              Bk ← getitem B k;
              for_each (range2 jj j_max) Ci (λ Ci j,
                cij ← getitem Ci j;
                bkj ← getitem Bk j;
                setitem Ci j (fadd cij (fmul aik bkj))));
            setitem C i Ci)))) C) as (C' & Hrun & HC' & Hget); [lia| | |].
  - split; [done|]. intros i j Hj. by rewrite decide_False by lia.
  - intros ii C1 Hii [HC1 Hget].
    rewrite (bind_Ok _ _ _ (range_step_pos n BS HBS)).
    destruct (kk_loop n A B C1 BS ii) as (C2 & -> & HC2 & Hget2); [done..|].
    exists C2. split; [done|]. split; [done|].
    intros i j Hj. rewrite Hget2, Hget by done.
    destruct (decide (ii ≤ i < Nat.min (ii + Z.to_nat BS) n)).
    + rewrite decide_False by lia. by rewrite decide_True by lia.
    + destruct (decide (i < ii)).
      * by rewrite decide_True by lia.
      * by rewrite decide_False by lia.
  - exists C'. split; [done|]. split; [done|].
    intros i j Hi Hj. rewrite Hget by done. by rewrite decide_True by lia.
Qed.

Lemma matmul_blocked_spec (n : nat) (A B : matrix) (BS : Z) :
  (0 < BS)%Z → shape n n A → shape n n B →
  matmul_blocked A B BS = Ok (mat_product A B).
Proof.
  intros HBS HA HB. unfold matmul_blocked.
  assert (Hn : length A = n) by (by destruct HA). rewrite Hn.
  rewrite (bind_Ok _ _ _ (range_step_pos n BS HBS)).
  destruct (ii_loop n A B (zeros n n) BS) as (C' & Hrun & HC' & Hget);
    [done|by apply shape_covers|by apply shape_covers|apply shape_zeros|].
  cbv zeta in Hrun |- *. rewrite Hrun.
  f_equal. apply (matrix_eq_mget n n); [done| |].
  - rewrite <- Hn. apply shape_mat_product.
  - intros i j Hi Hj. rewrite Hget by done. rewrite mget_zeros.
    rewrite mget_mat_product by lia. by rewrite Hn.
Qed.

(** ** The work partitioner *)

Lemma lookup_enumerate {X} (l : list X) (q : nat) (c : nat * X) :
  enumerate l !! q = Some c → c.1 = q ∧ l !! q = Some c.2.
Proof.
  unfold enumerate. rewrite list_lookup_imap.
  destruct (l !! q) as [x|]; [|done]. simpl. by intros [= <-].
Qed.

Lemma length_enumerate {X} (l : list X) : length (enumerate l) = length l.
Proof. unfold enumerate. apply length_imap. Qed.

(** A worker multiplies each row of its chunk by [B]; an empty chunk gives
    an empty result. *)
Lemma worker_chunk_spec (n : nat) (A_chunk B : matrix) (start_i : Z) :
  shape n n B → Forall (λ r, length r = n) A_chunk →
  worker_chunk (A_chunk, B, start_i) = Ok (start_i, row_product B n <$> A_chunk).
Proof.
  intros HB Hrows. unfold worker_chunk, range.
  assert (Hn : length B = n) by (by destruct HB). rewrite Hn.
  destruct (for_each_ind (λ q (C_chunk : matrix),
    C_chunk = row_product B n <$> take q A_chunk) (enumerate A_chunk)
    (λ (C_chunk : matrix) '(idx, Ai),
      let Ci := replicate n f0 in
      Ci ← for_each (seq 0 n) Ci (λ Ci k,
        aik ← getitem Ai k;
        Bk ← getitem B k;
        for_each (seq 0 n) Ci (λ Ci j,
          cij ← getitem Ci j;
          bkj ← getitem Bk j;
          setitem Ci j (fadd cij (fmul aik bkj))));
      Ok (C_chunk ++ [Ci])) []) as (C' & Hrun & HC').
  - by rewrite take_0.
  - intros q [idx Ai] C_chunk Hq ->. apply lookup_enumerate in Hq as [_ Hq].
    simpl in Hq. cbv zeta. rewrite row_full_loop; [|by eapply Forall_lookup_1 in Hrows|done].
    eexists. split; [done|]. by rewrite (take_S_r _ _ _ Hq), fmap_app.
  - cbv zeta in Hrun |- *. rewrite Hrun. simpl.
    rewrite HC', length_enumerate. by rewrite take_ge by lia.
Qed.

(** Writing the rows of one result chunk back at its offset. *)
Lemma merge_chunk (C rows : matrix) (start : nat) :
  start + length rows ≤ length C →
  for_each (enumerate rows) C (λ (C : matrix) '(off, row),
    setitemZ C (Z.of_nat start + Z.of_nat off) row)
  = Ok (take start C ++ rows ++ drop (start + length rows) C).
Proof.
  intros Hlen.
  destruct (for_each_ind (λ q (C' : matrix),
    C' = take start C ++ take q rows ++ drop (start + q) C) (enumerate rows)
    (λ (C : matrix) '(off, row),
      setitemZ C (Z.of_nat start + Z.of_nat off) row) C) as (C' & -> & HC').
  - rewrite take_0, Nat.add_0_r. simpl. by rewrite take_drop.
  - intros q [off row] C1 Hq ->. apply lookup_enumerate in Hq as [Hoff Hq].
    simpl in Hoff, Hq. subst off. apply lookup_lt_Some in Hq as Hqlt.
    assert (Hl1 : length (take start C) = start) by (rewrite length_take; lia).
    assert (Hl2 : length (take q rows) = q) by (rewrite length_take; lia).
    destruct (lookup_lt_is_Some_2 C (start + q) ltac:(lia)) as [old Hold].
    unfold setitemZ. rewrite decide_True by lia.
    replace (Z.to_nat (Z.of_nat start + Z.of_nat q)) with (start + q) by lia.
    rewrite setitem_Ok by (rewrite !length_app, Hl1, Hl2, length_drop; lia).
    eexists. split; [done|].
    rewrite insert_app_r_alt by lia. rewrite Hl1.
    rewrite insert_app_r_alt by lia. rewrite Hl2.
    replace (start + q - start - q) with 0 by lia.
    rewrite (drop_S _ _ _ Hold). simpl.
    rewrite (take_S_r _ _ _ Hq), <- app_assoc. simpl.
    by replace (start + S q) with (S (start + q)) by lia.
  - f_equal. rewrite HC', length_enumerate. by rewrite (take_ge rows) by lia.
Qed.


Lemma chunk_cut (n pn t : nat) : t < pn → t * (n / pn) + n / pn ≤ n.
Proof.
  intros Ht. pose proof (Nat.div_mod_eq n pn). nia.
Qed.

Lemma clamp_index_nat (len i : nat) : i ≤ len → clamp_index len (Z.of_nat i) = i.
Proof. intros Hi. unfold clamp_index. rewrite decide_False by lia. lia. Qed.

(** The tasks of [parallel_mul] in terms of natural-number cut points. *)
Lemma make_tasks_nat (A B : matrix) (pn : nat) :
  0 < pn →
  make_tasks A B (Z.of_nat pn) (Z.of_nat (length A) / Z.of_nat pn)
  = (λ t, (chunk_of A pn (length A / pn) t, B, Z.of_nat (t * (length A / pn))))
    <$> seq 0 pn.
Proof.
  intros Hpn. unfold make_tasks, rangeZ.
  replace (Z.to_nat (Z.of_nat pn - 0)) with pn by lia.
  rewrite <- list_fmap_compose. apply list_fmap_ext.
  intros i t [-> Ht]%lookup_seq. rewrite Nat.add_0_l. unfold compose.
  rewrite Z.add_0_l. rename i into t.
  set (n := length A). set (c := n / pn).
  assert (Hc : (Z.of_nat n / Z.of_nat pn)%Z = Z.of_nat c) by (by rewrite <- Nat2Z.inj_div).
  rewrite Hc. pose proof (chunk_cut n pn t Ht) as Hcut. fold c in Hcut.
  replace (Z.of_nat t * Z.of_nat c)%Z with (Z.of_nat (t * c)) by lia.
  f_equal. f_equal. unfold slice, chunk_of, chunk_len. fold n c.
  rewrite clamp_index_nat by lia.
  destruct (decide (t = pn - 1)) as [Hlast|Hlast].
  - rewrite decide_True by lia. by rewrite clamp_index_nat by lia.
  - rewrite decide_False by lia.
    replace ((Z.of_nat t + 1) * Z.of_nat c)%Z with (Z.of_nat (t * c + c)) by lia.
    rewrite clamp_index_nat by lia. f_equal. lia.
Qed.

Lemma length_chunk_of (A : matrix) (pn t : nat) :
  t < pn →
  length (chunk_of A pn (length A / pn) t) = chunk_len (length A) pn (length A / pn) t.
Proof.
  intros Ht. unfold chunk_of. rewrite length_take, length_drop.
  pose proof (chunk_cut (length A) pn t Ht). unfold chunk_len. case_decide; lia.
Qed.

Lemma chunk_of_rows (n : nat) (A : matrix) (pn c t : nat) :
  Forall (λ r, length r = n) A → Forall (λ r, length r = n) (chunk_of A pn c t).
Proof. intros HA. unfold chunk_of. by apply Forall_take, Forall_drop. Qed.


Lemma covered_step (A : matrix) (pn q : nat) :
  q < pn →
  covered (length A) pn (length A / pn) (S q)
  = q * (length A / pn) + chunk_len (length A) pn (length A / pn) q.
Proof.
  intros Hq. pose proof (chunk_cut (length A) pn q Hq).
  unfold covered, chunk_len.
  destruct (decide (q = pn - 1)).
  - rewrite decide_True by lia. lia.
  - rewrite decide_False by lia. lia.
Qed.


Lemma parallel_mul_spec (n : nat) (A B : matrix) (p : Z) :
  shape n n A → shape n n B → (1 ≤ p)%Z →
  parallel_mul A B p = Ok (mat_product A B).
Proof.
  intros [Hn HA] HB Hp. unfold parallel_mul, floordiv, ProcessPoolExecutor.
  rewrite decide_False by lia. rewrite decide_False by lia. simpl.
  set (pn := Z.to_nat p). assert (Hpn : 0 < pn) by lia.
  replace p with (Z.of_nat pn) by lia. rewrite make_tasks_nat by done.
  rewrite Hn. set (c := n / pn).
  rewrite (mapM_Ok worker_chunk
             (λ task, (task.2, row_product B n <$> task.1.1))); last first.
  { intros [[ch B'] s] Hin. apply list_elem_of_fmap in Hin as (t & [= -> -> ->] & _).
    apply worker_chunk_spec; [done|]. by apply chunk_of_rows. }
  rewrite <- list_fmap_compose. unfold compose. simpl.
  destruct (for_each_ind (λ q (C' : matrix),
      C' = (row_product B n <$> take (covered n pn c q) A)
           ++ drop (covered n pn c q) (zeros n n))
    ((λ t, (Z.of_nat (t * c), row_product B n <$> chunk_of A pn c t)) <$> seq 0 pn)
    (λ (C : matrix) '(start_i, C_chunk),
      for_each (enumerate C_chunk) C (λ (C : matrix) '(off, row),
        setitemZ C (start_i + Z.of_nat off) row)) (zeros n n)) as (C' & -> & HC').
  - unfold covered. rewrite decide_False by lia. by rewrite take_0.
  - intros q [s rows] C1 Hq ->. rewrite list_lookup_fmap in Hq.
    destruct (seq 0 pn !! q) as [t|] eqn:Ht; [|done].
    apply lookup_seq in Ht as [-> Hlt]. simpl in Hq. injection Hq as <- <-.
    pose proof (covered_step A pn q Hlt) as Hstep. rewrite Hn in Hstep. fold c in Hstep.
    pose proof (length_chunk_of A pn q Hlt) as Hlen. rewrite Hn in Hlen. fold c in Hlen.
    pose proof (chunk_cut n pn q Hlt) as Hcut. fold c in Hcut.
    assert (Hcov : covered n pn c q = q * c).
    { unfold covered. by rewrite decide_False by lia. }
    assert (Hle : q * c + chunk_len n pn c q ≤ n).
    { unfold chunk_len. case_decide; lia. }
    rewrite Hcov.
    assert (Hl1 : length (row_product B n <$> take (q * c) A) = q * c).
    { rewrite length_fmap, length_take. lia. }
    rewrite merge_chunk; last first.
    { rewrite length_app, Hl1, length_drop, length_fmap, Hlen.
      unfold zeros. rewrite length_replicate. lia. }
    eexists. split; [done|].
    rewrite take_app_length' by done.
    rewrite drop_app_ge by lia. rewrite Hl1, drop_drop.
    rewrite length_fmap, Hlen, app_assoc, <- fmap_app. unfold chunk_of. rewrite Hn.
    rewrite take_take_drop, Hstep. do 2 f_equal. lia.
  - f_equal. rewrite HC', length_fmap, length_seq. unfold covered.
    rewrite decide_True by done. rewrite take_ge by lia.
    rewrite drop_ge by (unfold zeros; rewrite length_replicate; lia).
    rewrite app_nil_r. unfold mat_product. by rewrite Hn.
Qed.

(** ** The sparse kernel *)

Lemma for_each_preserves {St X} (P : St → Prop) (xs : list X)
    (body : St → X → res St) (s0 : St) :
  P s0 →
  (∀ x s, x ∈ xs → P s → ∃ s', body s x = Ok s' ∧ P s') →
  ∃ s', for_each xs s0 body = Ok s' ∧ P s'.
Proof.
  intros H0 Hstep.
  apply (for_each_ind (λ _, P)); [done|].
  intros q x s Hq Hs. apply Hstep; [|done]. by eapply list_elem_of_lookup_2.
Qed.

Lemma getitemZ_nat {X} (l : list X) (i : Z) :
  (0 ≤ i < Z.of_nat (length l))%Z →
  ∃ x, l !! Z.to_nat i = Some x ∧ getitemZ l i = Ok x.
Proof.
  intros Hi. unfold getitemZ. rewrite decide_True by lia.
  apply getitem_lt. lia.
Qed.

Lemma elem_of_rangeZ (a b x : Z) : x ∈ rangeZ a b ↔ (a ≤ x < b)%Z.
Proof.
  unfold rangeZ. rewrite list_elem_of_fmap. split.
  - intros (q & -> & Hq%elem_of_seq). lia.
  - intros Hx. exists (Z.to_nat (x - a)). split; [lia|]. apply elem_of_seq. lia.
Qed.


Lemma spmm_csr_dense_total (row_ptr col_idx : list Z) (vals : list F) (B : matrix) :
  0 < length B → csr_fits row_ptr col_idx vals B →
  ∃ C : matrix, spmm_csr_dense row_ptr col_idx vals B = Ok C
                ∧ shape (length row_ptr - 1) (length (mrow B 0)) C.
Proof.
  intros HB (Hrp & Hptr & Hcol & Hrows). unfold spmm_csr_dense, range.
  rewrite (bind_Ok _ _ _ (getitem_mrow B 0 HB)).
  set (n := length (mrow B 0)). fold n in Hrows.
  replace (Z.to_nat (Z.of_nat (length row_ptr) - 1)) with (length row_ptr - 1) by lia.
  set (m := length row_ptr - 1).
  apply (for_each_preserves (shape m n)); [apply shape_zeros|].
  intros i C Hi%elem_of_seq HC.
  destruct (getitem_lt row_ptr i ltac:(lia)) as (start & Hstart & ->).
  destruct (getitem_lt row_ptr (i + 1) ltac:(lia)) as (end_ & Hend & ->). simpl.
  assert (HlenC : length C = m) by (by destruct HC).
  rewrite (bind_Ok _ _ _ (getitem_mrow C i ltac:(lia))).
  pose proof (Forall_lookup_1 _ _ _ _ Hptr Hstart) as Hs. simpl in Hs.
  pose proof (Forall_lookup_1 _ _ _ _ Hptr Hend) as He. simpl in He.
  destruct (for_each_preserves (λ Ci : list F, length Ci = n) (rangeZ start end_)
    (λ Ci p,
      k ← getitemZ col_idx p;
      aik ← getitemZ vals p;
      Bk ← getitemZ B k;
      for_each (seq 0 n) Ci (λ Ci j,
        cij ← getitem Ci j;
        bkj ← getitem Bk j;
        setitem Ci j (fadd cij (fmul aik bkj)))) (mrow C i)) as (Ci' & -> & HCi').
  - apply (shape_mrow m n); [done|lia].
  - intros pp Ci Hpp%elem_of_rangeZ HCi.
    destruct (getitemZ_nat col_idx pp ltac:(lia)) as (k & Hk & ->).
    destruct (getitemZ_nat vals pp ltac:(lia)) as (aik & _ & ->). simpl.
    pose proof (Forall_lookup_1 _ _ _ _ Hcol Hk) as Hkr. simpl in Hkr.
    destruct (getitemZ_nat B k Hkr) as (Bk & HBk & ->). simpl.
    pose proof (Forall_lookup_1 _ _ _ _ Hrows HBk) as HBkr. simpl in HBkr.
    destruct (axpy_loop aik Bk Ci 0 n) as (Ci' & -> & Hlen & _); [lia..|].
    exists Ci'. split; [done|]. lia.
  - simpl. rewrite setitem_Ok by lia. eexists. split; [done|].
    by apply shape_insert.
Qed.

Lemma spmm_csr_dense_empty_B (row_ptr col_idx : list Z) (vals : list F) :
  spmm_csr_dense row_ptr col_idx vals [] = Raise IndexError.
Proof. done. Qed.

(** ** The target of the sparse generator

    What the binary64 arithmetic of [int(n*n*density)] guarantees: a product
    that is at most the integer [N < 2^53] in exact arithmetic is rounded to
    a float that is at most [N], since [N] is itself a float with the
    exponent of the product or a larger one. *)
















Lemma nnz_target_zero_size (density : float) :
  finite_density density → nnz_target 0 density = Ok 0%Z.
Proof. by destruct density as [| | |[] ? ?]. Qed.









Lemma pos_pow_1_l (p : positive) : (1 ^ p = 1)%positive.
Proof. apply Pos2Z.inj. rewrite Pos2Z.inj_pow. apply Z.pow_1_l. lia. Qed.


Lemma float_value_finite (s : bool) (m : positive) (e : Z) :
  float_value (S754_finite s m e)
  = match e with
    | Z0 => Qmake (cond_Zopp s (Z.pos m) * 1) 1
    | Z.pos p => Qmake (cond_Zopp s (Z.pos m) * 2 ^ Z.pos p) 1
    | Z.neg p => Qmake (cond_Zopp s (Z.pos m) * 1) (1 * 2 ^ p)
    end.
Proof.
  unfold float_value. destruct e as [|p|p]; [done| |].
  - unfold Qpower. rewrite Qpower_decomp_positive, pos_pow_1_l. done.
  - unfold Qpower. rewrite Qpower_decomp_positive, pos_pow_1_l.
    pose proof (Pos2Z.inj_pow 2 p) as Hq.
    unfold Qinv. cbn [Qnum Qden]. rewrite <- Hq. done.
Qed.

Lemma unit_density_value (d : float) :
  unit_density d
  ↔ (∃ s m e, d = S754_finite s m e)
    ∧ (0 < float_value d)%Q ∧ (float_value d <= 1)%Q.
Proof.
  destruct d as [s|s| |s m e].
  1-3: split; [done|]; by intros [(? & ? & ? & ?) _].
  rewrite float_value_finite. split.
  - destruct s; [done|]. intros [He Hm]. split; [by eexists _, _, _|].
    destruct e as [|p|p]; [| lia |]; unfold Qlt, Qle; cbn [Qnum Qden cond_Zopp] in *.
    + simpl in Hm. lia.
    + change (- Z.neg p)%Z with (Z.pos p) in Hm. rewrite Pos2Z.inj_mul, Pos2Z.inj_pow. lia.
  - intros (_ & Hpos & Hle). unfold Qlt, Qle in *.
    destruct s.
    { destruct e; cbn [Qnum Qden cond_Zopp] in *; lia. }
    destruct e as [|p|p]; cbn [Qnum Qden cond_Zopp] in *.
    + simpl. lia.
    + pose proof (Z.pow_lt_mono_r 2 0 (Z.pos p) ltac:(lia) ltac:(lia) ltac:(lia)) as Hp.
      rewrite Z.pow_0_r in Hp. nia.
    + split; [lia|]. change (- Z.neg p)%Z with (Z.pos p).
      rewrite Pos2Z.inj_mul, Pos2Z.inj_pow in Hle. lia.
Qed.

Lemma nonpos_density_value (d : float) :
  nonpos_density d ↔ finite_density d ∧ (float_value d <= 0)%Q.
Proof.
  destruct d as [s|s| |s m e]; [done|by split; [|intros []]|by split; [|intros []]|].
  rewrite float_value_finite. split.
  - destruct s; [|done]. intros _. split; [done|].
    destruct e as [|p|p]; unfold Qle; cbn [Qnum Qden cond_Zopp]; [lia| |lia].
    pose proof (Z.pow_pos_nonneg 2 (Z.pos p) ltac:(lia) ltac:(lia)). nia.
  - intros [_ Hle]. destruct s; [done|]. unfold Qle in Hle.
    destruct e as [|p|p]; cbn [Qnum Qden cond_Zopp] in Hle; [lia| |lia].
    pose proof (Z.pow_pos_nonneg 2 (Z.pos p) ltac:(lia) ltac:(lia)). nia.
Qed.


(** ** The sparse generator

    The contract of [random.Random.sample]: [k] distinct elements of the
    population [range(n)]. *)
Hypothesis rnd_sample_spec : ∀ (rnd : rng) (n k : nat),
  k ≤ n →
  length (rnd_sample rnd n k).1 = k
  ∧ NoDup (rnd_sample rnd n k).1
  ∧ Forall (λ j, (0 ≤ j < Z.of_nat n)%Z) (rnd_sample rnd n k).1.








(** The inner loop appends the columns and one value for each. *)
Lemma emit_cols_spec (st : csr_acc) (cols : list Z) :
  acc_row_ptr (emit_cols st cols) = acc_row_ptr st
  ∧ acc_col_idx (emit_cols st cols) = acc_col_idx st ++ cols
  ∧ length (acc_vals (emit_cols st cols)) = length (acc_vals st) + length cols.
Proof.
  unfold emit_cols. revert st. induction cols as [|j cols IH]; intros st; simpl.
  - by rewrite app_nil_r, Nat.add_0_r.
  - destruct (rnd_random (acc_rnd st)) as [v rnd'].
    destruct (IH (CsrAcc rnd' (acc_row_ptr st) (acc_col_idx st ++ [j]) (acc_vals st ++ [v])))
      as (-> & -> & ->). simpl.
    rewrite <- app_assoc, length_app. simpl. split; [done|]. split; [done|]. lia.
Qed.






Lemma length_rangeZ (a b : Z) : length (rangeZ a b) = Z.to_nat (b - a).
Proof. unfold rangeZ. by rewrite length_fmap, length_seq. Qed.

Lemma rangeZ_in_range (n : Z) : Forall (λ j, (0 ≤ j < n)%Z) (rangeZ 0 n).
Proof. apply Forall_forall. intros x. by rewrite elem_of_rangeZ. Qed.






Lemma lookup_rangeZ (a b : Z) (q : nat) (x : Z) :
  rangeZ a b !! q = Some x → x = (a + Z.of_nat q)%Z ∧ (a + Z.of_nat q < b)%Z.
Proof.
  unfold rangeZ. rewrite list_lookup_fmap.
  destruct (seq 0 (Z.to_nat (b - a)) !! q) as [q'|] eqn:Hq; [|done].
  apply lookup_seq in Hq as [-> Hq]. simpl. intros [= <-]. lia.
Qed.

(** What the target computation raises, the generator raises. *)
Lemma gen_sparse_csr_target_raises (n : Z) (density : float) (seed : Z) (e : exn) :
  nnz_target n density = Raise e → gen_sparse_csr n density seed = Raise e.
Proof.
  unfold nnz_target, gen_sparse_csr.
  destruct (float_of_int (n * n)) as [nn|e']; simpl; [by intros ->|by intros [= ->]].
Qed.










(** ** The dense generator

    The contract of [random.Random.random]: a float in [0, 1), written
    [unit_interval]. *)
Variable unit_interval : F → Prop.
Hypothesis rnd_random_unit : ∀ rnd : rng, unit_interval (rnd_random rnd).1.



Lemma rnd_iter_succ_r k rnd : rnd_iter (S k) rnd = rnd_iter k (rnd_random rnd).2.
Proof. unfold rnd_iter. by rewrite Nat.iter_succ_r. Qed.

Lemma rnd_iter_add k k' rnd : rnd_iter (k + k') rnd = rnd_iter k (rnd_iter k' rnd).
Proof. unfold rnd_iter. by rewrite Nat.iter_add. Qed.

Lemma draw_row_spec (n : nat) (rnd : rng) :
  draw_row n rnd = ((λ k, nth_random rnd k) <$> seq 0 n, rnd_iter n rnd).
Proof.
  revert rnd. induction n as [|n IH]; intros rnd; [done|].
  simpl. destruct (rnd_random rnd) as [x rnd1] eqn:Hx. rewrite IH.
  f_equal.
  - f_equal; [unfold nth_random; simpl; by rewrite Hx|].
    rewrite <- fmap_S_seq, <- list_fmap_compose. apply list_fmap_ext.
    intros _ k _. unfold compose, nth_random. by rewrite rnd_iter_succ_r, Hx.
  - change (rnd_iter n rnd1 = rnd_iter (S n) rnd). by rewrite rnd_iter_succ_r, Hx.
Qed.

Lemma draw_rows_spec (m n : nat) (rnd : rng) :
  draw_rows m n rnd
  = ((λ i, (λ j, nth_random rnd (i * n + j)) <$> seq 0 n) <$> seq 0 m,
     rnd_iter (m * n) rnd).
Proof.
  revert rnd. induction m as [|m IH]; intros rnd; [done|].
  simpl. rewrite draw_row_spec, IH. f_equal.
  - f_equal.
    rewrite <- fmap_S_seq, <- list_fmap_compose. apply list_fmap_ext.
    intros _ i _. unfold compose. apply list_fmap_ext. intros _ j _.
    unfold nth_random. rewrite <- rnd_iter_add. do 3 f_equal. lia.
  - rewrite <- rnd_iter_add. f_equal. lia.
Qed.

Lemma gen_dense_stream (n seed : Z) :
  gen_dense n seed = dense_of_stream (Random seed) (Z.to_nat n).
Proof. unfold gen_dense. by rewrite draw_rows_spec. Qed.

Lemma shape_dense_of_stream rnd n : shape n n (dense_of_stream rnd n).
Proof.
  unfold dense_of_stream. split; [by rewrite length_fmap, length_seq|].
  apply Forall_fmap, Forall_forall. intros i _. simpl.
  by rewrite length_fmap, length_seq.
Qed.

Lemma shape_gen_dense (n seed : Z) :
  shape (Z.to_nat n) (Z.to_nat n) (gen_dense n seed).
Proof. rewrite gen_dense_stream. apply shape_dense_of_stream. Qed.

Lemma mget_dense_of_stream rnd n i j :
  i < n → j < n → mget (dense_of_stream rnd n) i j = nth_random rnd (i * n + j).
Proof.
  intros Hi Hj. unfold mget, dense_of_stream.
  erewrite mrow_lookup; last by rewrite list_lookup_fmap, lookup_seq_lt.
  apply rget_lookup. by rewrite list_lookup_fmap, lookup_seq_lt.
Qed.

(** C9.  For every size [n ≥ 0] and every seed, the dense generator returns
    the [n] by [n] matrix whose entry [(i, j)] is draw number [i*n + j] of a
    generator freshly seeded with [seed]: a function of [(n, seed)] alone, so
    that two calls with the same arguments return identical matrices, and in
    particular the Stage 1 and Stage 2 generators return the same matrix.
    Every entry is a value of [random()], hence lies in [0, 1). *)
Theorem gen_dense_deterministic (n seed : Z) :
  (0 ≤ n)%Z →
  gen_dense n seed = dense_of_stream (Random seed) (Z.to_nat n)
  ∧ gen_matrix n seed = gen_dense n seed
  ∧ (∀ A1 A2, A1 = gen_dense n seed → A2 = gen_dense n seed → A1 = A2)
  ∧ shape (Z.to_nat n) (Z.to_nat n) (gen_dense n seed)
  ∧ (∀ i j, i < Z.to_nat n → j < Z.to_nat n →
       mget (gen_dense n seed) i j = nth_random (Random seed) (i * Z.to_nat n + j))
  ∧ Forall (Forall unit_interval) (gen_dense n seed).
Proof.
  intros _. split; [apply gen_dense_stream|]. split; [done|].
  split; [by intros A1 A2 -> ->|]. split; [apply shape_gen_dense|].
  split.
  - intros i j Hi Hj. rewrite gen_dense_stream. by apply mget_dense_of_stream.
  - rewrite gen_dense_stream. unfold dense_of_stream.
    apply Forall_fmap, Forall_forall. intros i _. simpl.
    apply Forall_fmap, Forall_forall. intros j _. simpl.
    apply rnd_random_unit.
Qed.

(** ** Loops of the drivers *)

(** Runs the straight-line part of a driver on its world. *)
Ltac run_M := unfold mbind, M_bind, log, perf_counter, lift, mret, M_ret; simpl.

Lemma M_bind_Ok {X Y} (m : M X) (f : X → M Y) (w w' : world) (x : X) :
  m w = (Ok x, w') → (m ≫= f) w = f x w'.
Proof. intros Hm. unfold mbind, M_bind. by rewrite Hm. Qed.

Lemma for_each_M_ind {St X} (Inv : nat → St → world → Prop) (xs : list X)
    (body : St → X → M St) (s0 : St) (w0 : world) :
  Inv 0 s0 w0 →
  (∀ q x s w, xs !! q = Some x → Inv q s w →
     ∃ s' w', body s x w = (Ok s', w') ∧ Inv (S q) s' w') →
  ∃ s' w', for_each xs s0 body w0 = (Ok s', w') ∧ Inv (length xs) s' w'.
Proof.
  revert Inv s0 w0. induction xs as [|x xs IH]; intros Inv s0 w0 H0 Hstep.
  - by exists s0, w0.
  - destruct (Hstep 0 x s0 w0 eq_refl H0) as (s1 & w1 & Hb & H1).
    destruct (IH (λ q, Inv (S q)) s1 w1 H1) as (s' & w' & Hf & Hs').
    { intros q y s w Hq. by apply Hstep. }
    exists s', w'. split; [|done].
    simpl. unfold mbind, M_bind at 1. by rewrite Hb.
Qed.

Lemma mapM_M_ind {X Y} (Inv : nat → world → Prop) (xs : list X)
    (f : X → M Y) (w0 : world) :
  Inv 0 w0 →
  (∀ q x w, xs !! q = Some x → Inv q w → ∃ y w', f x w = (Ok y, w') ∧ Inv (S q) w') →
  ∃ ys w', mapM f xs w0 = (Ok ys, w') ∧ length ys = length xs ∧ Inv (length xs) w'.
Proof.
  revert Inv w0. induction xs as [|x xs IH]; intros Inv w0 H0 Hstep.
  - by exists [], w0.
  - destruct (Hstep 0 x w0 eq_refl H0) as (y & w1 & Hb & H1).
    destruct (IH (λ q, Inv (S q)) w1 H1) as (ys & w' & Hf & Hlen & Hs').
    { intros q z w Hq. by apply Hstep. }
    exists (y :: ys), w'. split; [|split; [simpl; lia|done]].
    simpl. unfold mbind, M_bind at 1. rewrite Hb.
    unfold mbind, M_bind at 1. by rewrite Hf.
Qed.

(** ** The Stage 2 driver *)



Lemma run_once_dense (n : Z) (a : algo) (BS : Z) (density : float) (w : world) :
  a ≠ Sparse →
  run_once n a BS density w
  = match dense_kernel a BS (gen_dense n BASE_SEED) (gen_dense n (BASE_SEED + 1)) with
    | Ok _ => (Ok (elapsed_ms (clock (w_ticks w)) (clock (S (w_ticks w)))),
               World (w_global_rng w) (S (S (w_ticks w))) (w_log w ++ dense_events n))
    | Raise e => (Raise e,
                  World (w_global_rng w) (S (w_ticks w)) (w_log w ++ dense_events n))
    end.
Proof.
  intros Ha. unfold dense_events.
  destruct a; [| | |done]; unfold run_once, dense_kernel; run_M;
    match goal with |- context [match ?k with Ok _ => _ | Raise _ => _ end] =>
      destruct k end; simpl; by rewrite <- !app_assoc.
Qed.

Lemma gen_dense_nonpos (n seed : Z) : (n ≤ 0)%Z → gen_dense n seed = [].
Proof. intros Hn. unfold gen_dense. by replace (Z.to_nat n) with 0 by lia. Qed.




Lemma dense_kernel_generated (n : Z) (a : algo) (BS : Z) :
  (a = Blocked → (0 < BS)%Z) →
  dense_kernel a BS (gen_dense n BASE_SEED) (gen_dense n (BASE_SEED + 1))
  = Ok (mat_product (gen_dense n BASE_SEED) (gen_dense n (BASE_SEED + 1))).
Proof.
  intros HBS. pose proof (shape_gen_dense n BASE_SEED).
  pose proof (shape_gen_dense n (BASE_SEED + 1)).
  destruct a; simpl.
  - by eapply matmul_basic_spec.
  - eapply matmul_blocked_spec; [by apply HBS|done..].
  - by eapply matmul_transposed_spec.
  - by eapply matmul_basic_spec.
Qed.


Lemma parallel_mul_zero_workers (A B : matrix) : parallel_mul A B 0 = Raise ZeroDivisionError.
Proof. done. Qed.

Lemma parallel_mul_negative_workers (A B : matrix) (p : Z) :
  (p < 0)%Z → parallel_mul A B p = Raise ValueError.
Proof.
  intros Hp. unfold parallel_mul, floordiv, ProcessPoolExecutor.
  rewrite (decide_False (P := (p = 0)%Z)) by lia. simpl.
  by rewrite (decide_True (P := (p ≤ 0)%Z)) by lia.
Qed.



(** An exception of the generator ends the run before anything else is
    generated. *)
Lemma run_once_sparse_raises (n BS : Z) (density : float) (w : world) (e : exn) :
  gen_sparse_csr n density BASE_SEED = Raise e →
  run_once n Sparse BS density w
  = (Raise e,
     World (w_global_rng w) (w_ticks w)
           (w_log w ++ [EvGenerateSparse n density BASE_SEED])).
Proof.
  intros Hgen. unfold run_once, mbind, M_bind, log, lift.
  cbn [w_global_rng w_ticks w_log]. by rewrite Hgen.
Qed.


(** The operands of a dense run are reproducible: what [run_once] adds to
    the log is the same in any two worlds, whatever the clock, the state of
    the module-level generator and the earlier calls. *)
Lemma run_once_reproducible (n : Z) (a : algo) (BS : Z) (density : float) (w1 w2 : world) :
  a ≠ Sparse →
  drop (length (w_log w1)) (w_log (run_once n a BS density w1).2)
  = drop (length (w_log w2)) (w_log (run_once n a BS density w2).2).
Proof.
  intros Ha. rewrite !run_once_dense by done.
  destruct (dense_kernel a BS _ _); simpl; by rewrite !drop_app_length.
Qed.

(** ** The Stage 3 driver *)

Lemma shape_generate_dense (n : Z) : shape (Z.to_nat n) (Z.to_nat n) (generate_dense n).
Proof. apply (shape_gen_dense n SEED). Qed.


Lemma main3_body_raise (threads repeats n : Z) (st : gmap Z Q * list par_row)
    (w : world) (e : exn) :
  parallel_mul (generate_dense n) (generate_dense n) threads = Raise e →
  main3_body threads repeats n st w
  = (Raise e, World (w_global_rng w) (S (w_ticks w)) (w_log w ++ par_events n)).
Proof.
  intros Hmul. destruct st as [T1 rows]. unfold main3_body, par_events. run_M.
  rewrite Hmul. by rewrite <- !app_assoc.
Qed.

Lemma truediv_threads (x : Q) (threads : Z) :
  (1 ≤ threads)%Z → truediv x (inject_Z threads) = Ok (Qdiv x (inject_Z threads)).
Proof.
  intros Ht. unfold truediv, Qeq_bool. simpl.
  destruct (Z.eqb_spec (threads * 1) 0) as [E|E]; [lia|].
  by destruct threads.
Qed.

Lemma main3_body_ok (threads repeats n : Z) (T1 : gmap Z Q) (rows : list par_row)
    (w : world) :
  (1 ≤ threads)%Z →
  main3_body threads repeats n (T1, rows) w
  = let dt := elapsed_ms (clock (w_ticks w)) (clock (S (w_ticks w))) in
    let w' := World (w_global_rng w) (S (S (w_ticks w))) (w_log w ++ par_events n) in
    let default := ParRow n threads repeats dt 1 (Qdiv 1 (inject_Z threads)) in
    if decide (threads = 1)%Z then (Ok (<[n := dt]> T1, rows ++ [default]), w')
    else match T1 !! n with
         | Some base =>
             if Qeq_bool dt 0 then (Raise ZeroDivisionError, w')
             else (Ok (T1, rows ++ [ParRow n threads repeats dt (Qdiv base dt)
                                      (Qdiv (Qdiv base dt) (inject_Z threads))]), w')
         | None => (Ok (T1, rows ++ [default]), w')
         end.
Proof.
  intros Ht. unfold main3_body, par_events. run_M.
  rewrite (parallel_mul_spec _ _ _ _ (shape_generate_dense n) (shape_generate_dense n) Ht).
  rewrite <- !app_assoc. simpl.
  destruct (decide (threads = 1)%Z) as [->|Hne]; [done|].
  destruct (T1 !! n) as [base|]; [|by rewrite truediv_threads].
  unfold truediv at 1. destruct (Qeq_bool _ 0); [done|].
  by rewrite truediv_threads.
Qed.

(** C4.  In the Stage 3 driver both operands of every multiplication are
    generated from the same seed [SEED], so the product that is timed is
    [A] times [A]: whatever the worker count and the outcome of the
    multiplication, one pass of the loop body logs two generator calls with
    equal seeds followed by a multiplication of two equal matrices. *)
Theorem main3_same_operands (threads repeats n : Z) (st : gmap Z Q * list par_row)
    (w : world) :
  w_log (main3_body threads repeats n st w).2
  = w_log w ++ [EvGenerate n SEED; EvGenerate n SEED;
                EvMultiply (generate_dense n) (generate_dense n)].
Proof.
  destruct (parallel_mul (generate_dense n) (generate_dense n) threads) as [C|e] eqn:Hmul.
  - assert (Ht : (1 ≤ threads)%Z).
    { destruct (decide (threads = 0)%Z) as [->|]; [by rewrite parallel_mul_zero_workers in Hmul|].
      destruct (decide (threads < 0)%Z);
        [by rewrite parallel_mul_negative_workers in Hmul|lia]. }
    destruct st as [T1 rows]. rewrite main3_body_ok by done. cbv zeta.
    destruct (decide (threads = 1)%Z); [done|].
    destruct (T1 !! n); [|done]. by destruct (Qeq_bool _ 0).
  - by rewrite (main3_body_raise _ _ _ _ _ e).
Qed.


Lemma bench_log (n repeats : Z) (w : world) :
  w_log (bench n repeats w).2
  = w_log w ++ concat (bench_events n <$> rangeZ 0 repeats).
Proof.
  unfold bench.
  destruct (for_each_M_ind (λ q (_ : list Q) w',
      w_log w' = w_log w ++ concat (bench_events n <$> take q (rangeZ 0 repeats)))
    (rangeZ 0 repeats)
    (λ times_ms r,
      _ ← log (EvGenerate n (BASE_SEED + r));
      let A := gen_matrix n (BASE_SEED + r) in
      _ ← log (EvGenerate n (BASE_SEED + 1 + r));
      let B := gen_matrix n (BASE_SEED + 1 + r) in
      t0 ← perf_counter;
      _ ← log (EvMultiply A B);
      _ ← lift (matmul_basic A B);
      t1 ← perf_counter;
      mret (times_ms ++ [elapsed_ms t0 t1])) [] w) as (times & w' & Hrun & Hlog).
  - rewrite take_0. simpl. by rewrite app_nil_r.
  - intros q r times w1 Hq Hlog. cbv zeta. run_M.
    rewrite (matmul_basic_spec _ (gen_matrix n (BASE_SEED + r))
               (gen_matrix n (BASE_SEED + 1 + r))
               (shape_gen_dense n (BASE_SEED + r))
               (shape_gen_dense n (BASE_SEED + 1 + r))).
    eexists _, _. split; [done|]. simpl.
    rewrite Hlog, (take_S_r _ _ _ Hq), fmap_app, concat_app. simpl.
    by rewrite <- !app_assoc.
  - rewrite (M_bind_Ok _ _ _ _ _ Hrun). unfold lift. simpl.
    by rewrite Hlog, firstn_all.
Qed.

Lemma concat_replicate_S_r {X} (q : nat) (l : list X) :
  concat (replicate (S q) l) = concat (replicate q l) ++ l.
Proof.
  replace (S q) with (q + 1) by lia.
  rewrite replicate_add, concat_app. simpl. by rewrite app_nil_r.
Qed.

(** C7.  In the Stage 2 driver the repetitions of one size do not differ in
    their seeds: with the naive kernel, [repeats] repetitions of size [n]
    log [repeats] copies of the same three calls, every one generating its
    operands from [BASE_SEED] and [BASE_SEED + 1]. *)
Theorem main2_same_seeds (n repeats BS : Z) (density : float) (w : world) :
  w_log (main2 [n] Basic repeats BS density w).2
  = w_log w
    ++ concat (replicate (Z.to_nat repeats)
                 [EvGenerate n BASE_SEED; EvGenerate n (BASE_SEED + 1);
                  EvMultiply (gen_dense n BASE_SEED) (gen_dense n (BASE_SEED + 1))]).
Proof.
  fold (dense_events n). unfold main2. cbn [for_each].
  destruct (mapM_M_ind (λ q w',
      w_log w' = w_log w ++ concat (replicate q (dense_events n)))
    (rangeZ 0 repeats) (λ _, run_once n Basic BS density) w)
    as (times & w' & Hrun & Hlen & Hlog).
  - simpl. by rewrite app_nil_r.
  - intros q r w1 _ Hlog. rewrite run_once_dense by done.
    rewrite (dense_kernel_generated n Basic BS) by done.
    eexists _, _. split; [done|]. cbn [w_log]. rewrite Hlog.
    by rewrite concat_replicate_S_r, <- app_assoc.
  - rewrite length_rangeZ in Hlog.
    replace (Z.to_nat (repeats - 0)) with (Z.to_nat repeats) in Hlog by lia.
    set (m := mapM _ _) in *. unfold mbind, M_bind, lift, mret, M_ret.
    rewrite Hrun. by destruct (mean times).
Qed.

(** ** The claims about the kernels *)

(** C1 (amended).  For square matrices [A], [B] of equal dimension [n] and
    every block size [BS] among [1], [n], [n + 1] and [2n] that is not zero
    (all four when [n ≥ 1]), the naive, the transposed and the blocked
    kernel return the same matrix.  The entries are equal exactly, whatever
    the arithmetic, since for each entry the three kernels add the same
    products in the same order. *)
Theorem dense_kernels_agree (n : nat) (A B : matrix) (BS : Z) :
  shape n n A → shape n n B →
  (BS = 1 ∨ BS = Z.of_nat n ∨ BS = Z.of_nat n + 1 ∨ BS = 2 * Z.of_nat n)%Z →
  BS ≠ 0%Z →
  matmul_basic A B = Ok (mat_product A B)
  ∧ matmul_transposed A B = matmul_basic A B
  ∧ matmul_blocked A B BS = matmul_basic A B.
Proof.
  intros HA HB HBS Hne.
  rewrite (matmul_basic_spec n A B HA HB).
  rewrite (matmul_transposed_spec n A B HA HB).
  by rewrite (matmul_blocked_spec n A B BS ltac:(lia) HA HB).
Qed.


(** C10 (amended).  [spmm_csr_dense] reads [len(B[0])] before anything
    else: when [B] has no rows it raises [IndexError], whatever the sparse
    operand.  When [B] has a row and the CSR triple fits it (the row
    pointers are offsets into [col_idx] and [vals], the column indices are
    row numbers of [B], no row of [B] is shorter than the first), the
    function returns a matrix with [len(row_ptr) - 1] rows of [len(B[0])]
    entries. *)
Theorem spmm_csr_dense_shape (row_ptr col_idx : list Z) (vals : list F) (B : matrix) :
  (B = [] → spmm_csr_dense row_ptr col_idx vals B = Raise IndexError)
  ∧ (B ≠ [] → csr_fits row_ptr col_idx vals B →
       ∃ C : matrix,
         spmm_csr_dense row_ptr col_idx vals B = Ok C
         ∧ shape (length row_ptr - 1) (length (mrow B 0)) C).
Proof.
  split; [intros ->; apply spmm_csr_dense_empty_B|].
  intros HB Hfits. apply spmm_csr_dense_total; [|done].
  destruct B; [done|simpl; lia].
Qed.


(** ** Inversion of loops, and what the kernels raise *)

Lemma bind_Ok_inv {X Y} (m : res X) (f : X → res Y) (y : Y) :
  (m ≫= f) = Ok y → ∃ x, m = Ok x ∧ f x = Ok y.
Proof. destruct m as [x|e]; [|done]. intros Hf. by exists x. Qed.

Lemma for_each_Ok_body {St X} (xs : list X) (body : St → X → res St) (s0 s' : St) :
  for_each xs s0 body = Ok s' →
  ∀ x, x ∈ xs → ∃ s s1, body s x = Ok s1.
Proof.
  revert s0. induction xs as [|x xs IH]; intros s0 Hrun y Hy.
  - by apply elem_of_nil in Hy.
  - simpl in Hrun. apply bind_Ok_inv in Hrun as (s1 & Hb & Hrest).
    apply elem_of_cons in Hy as [->|Hy]; [by exists s0, s1|].
    by apply (IH s1).
Qed.

Lemma mapM_Ok_body {X Y} (f : X → res Y) (xs : list X) (ys : list Y) :
  mapM f xs = Ok ys → ∀ x, x ∈ xs → ∃ y, f x = Ok y.
Proof.
  revert ys. induction xs as [|x xs IH]; intros ys Hrun z Hz.
  - by apply elem_of_nil in Hz.
  - simpl in Hrun. apply bind_Ok_inv in Hrun as (y & Hy & Hrest).
    apply bind_Ok_inv in Hrest as (ys' & Hys & _).
    apply elem_of_cons in Hz as [->|Hz]; [by exists y|]. by apply (IH ys').
Qed.

Lemma getitem_Ok_lt {X} (l : list X) (i : nat) (x : X) :
  getitem l i = Ok x → i < length l ∧ l !! i = Some x.
Proof.
  unfold getitem. destruct (l !! i) as [y|] eqn:Hy; [|done].
  intros [= <-]. split; [by eapply lookup_lt_Some|done].
Qed.

Lemma raises_only_Ok {X} (P : exn → Prop) (x : X) : raises_only P (Ok x).
Proof. by intros e. Qed.

Lemma raises_only_bind {X Y} (P : exn → Prop) (m : res X) (f : X → res Y) :
  raises_only P m → (∀ x, raises_only P (f x)) → raises_only P (m ≫= f).
Proof.
  intros Hm Hf e. destruct m as [x|e']; simpl.
  - apply Hf.
  - intros [= <-]. by apply Hm.
Qed.

Lemma raises_only_for_each {St X} (P : exn → Prop) (xs : list X)
    (body : St → X → res St) (s0 : St) :
  (∀ s x, raises_only P (body s x)) → raises_only P (for_each xs s0 body).
Proof.
  intros Hbody. revert s0. induction xs as [|x xs IH]; intros s0; simpl.
  - apply raises_only_Ok.
  - apply raises_only_bind; [apply Hbody|apply IH].
Qed.

Lemma raises_only_mapM {X Y} (P : exn → Prop) (f : X → res Y) (xs : list X) :
  (∀ x, raises_only P (f x)) → raises_only P (mapM f xs).
Proof.
  intros Hf. induction xs as [|x xs IH]; simpl.
  - apply raises_only_Ok.
  - apply raises_only_bind; [apply Hf|]. intros y.
    apply raises_only_bind; [apply IH|]. intros ys. apply raises_only_Ok.
Qed.

Lemma raises_only_getitem {X} (l : list X) (i : nat) :
  raises_only (λ e, e = IndexError) (getitem l i).
Proof. intros e. unfold getitem. destruct (l !! i); [done|]. by intros [= <-]. Qed.

Lemma raises_only_setitem {X} (l : list X) (i : nat) (x : X) :
  raises_only (λ e, e = IndexError) (setitem l i x).
Proof. intros e. unfold setitem. case_decide; [done|]. by intros [= <-]. Qed.

(** Peels a kernel down to its list accesses. *)
Ltac raises_index :=
  repeat first
    [ apply raises_only_getitem
    | apply raises_only_setitem
    | apply raises_only_Ok
    | apply raises_only_for_each; intros ? ?
    | apply raises_only_mapM; intros ?
    | apply raises_only_bind; [|intros ?] ].

Lemma matmul_basic_raises (A B : matrix) :
  raises_only (λ e, e = IndexError) (matmul_basic A B).
Proof. unfold matmul_basic. raises_index. Qed.

Lemma matmul_transposed_raises (A B : matrix) :
  raises_only (λ e, e = IndexError) (matmul_transposed A B).
Proof. unfold matmul_transposed. raises_index. Qed.

Lemma returns_for_each {St X} (P : St → Prop) (xs : list X)
    (body : St → X → res St) (s0 : St) :
  P s0 → (∀ s x, P s → returns P (body s x)) → returns P (for_each xs s0 body).
Proof.
  intros H0 Hbody. revert s0 H0. induction xs as [|x xs IH]; intros s0 H0 s'; simpl.
  - by intros [= <-].
  - intros Hrun. apply bind_Ok_inv in Hrun as (s1 & Hb & Hrest).
    apply (IH s1); [|done]. by apply (Hbody s0 x).
Qed.

(** ** The domain of the naive and transposed kernels *)

Lemma dense_fits_rows (A B : matrix) (Ai : list F) :
  dense_fits A B → Ai ∈ A →
  length A ≤ length Ai ∧ length A ≤ length B
  ∧ ∀ k, k < length A → length A ≤ length (mrow B k).
Proof.
  intros [HA HB] Hin.
  assert (Hn : 0 < length A) by (destruct A; [by apply elem_of_nil in Hin|simpl; lia]).
  destruct (HB Hn) as [HlenB HrowsB].
  split; [by apply (proj1 (Forall_forall _ _) HA)|]. split; [done|].
  intros k Hk. destruct (lookup_lt_is_Some_2 B k ltac:(lia)) as [Bk HBk].
  rewrite (mrow_lookup _ _ _ HBk).
  apply (Forall_lookup_1 _ _ k Bk HrowsB). by rewrite lookup_take_lt.
Qed.

Lemma row_full_loop_wide (Ai : list F) (B : matrix) (n : nat) :
  n ≤ length Ai → n ≤ length B → (∀ k, k < n → n ≤ length (mrow B k)) →
  for_each (seq 0 n) (replicate n f0) (λ Ci k,
    aik ← getitem Ai k;
    Bk ← getitem B k;
    for_each (seq 0 n) Ci (λ Ci j,
      cij ← getitem Ci j;
      bkj ← getitem Bk j;
      setitem Ci j (fadd cij (fmul aik bkj)))) = Ok (row_product B n Ai).
Proof.
  intros HAi HB HBk.
  destruct (row_loop Ai B (replicate n f0) 0 n 0 n) as (Ci' & -> & Hlen & Hget).
  - lia.
  - lia.
  - intros k Hk. specialize (HBk k ltac:(lia)). lia.
  - rewrite length_replicate. lia.
  - f_equal. rewrite length_replicate in Hlen. apply list_eq_rget.
    + by rewrite length_row_product.
    + intros j Hj. rewrite Hget, decide_True by lia.
      rewrite rget_replicate. by rewrite rget_row_product by lia.
Qed.

Lemma matmul_basic_wide (A B : matrix) :
  dense_fits A B → matmul_basic A B = Ok (mat_product A B).
Proof.
  intros Hfits. unfold matmul_basic, mat_product, range.
  apply (rows_loop (λ Ai Ci,
    for_each (seq 0 (length A)) Ci (λ Ci k,
      aik ← getitem Ai k;
      Bk ← getitem B k;
      for_each (seq 0 (length A)) Ci (λ Ci j,
        cij ← getitem Ci j;
        bkj ← getitem Bk j;
        setitem Ci j (fadd cij (fmul aik bkj)))))
    (row_product B (length A)) (length A) A eq_refl).
  intros Ai HAi. destruct (dense_fits_rows A B Ai Hfits HAi) as (H1 & H2 & H3).
  by apply row_full_loop_wide.
Qed.

Lemma dense_reads_fits (A B : matrix) : dense_reads A B → dense_fits A B.
Proof.
  intros Hreads. split.
  - apply Forall_lookup. intros i Ai HAi.
    apply lookup_lt_Some in HAi as Hi.
    destruct (Hreads i (length A - 1) 0 ltac:(lia) ltac:(lia) ltac:(lia))
      as (Ai' & Bk & HAi' & Hk & _).
    rewrite HAi in HAi'. injection HAi' as <-. lia.
  - intros Hn. 
    destruct (Hreads 0 (length A - 1) 0 ltac:(lia) ltac:(lia) ltac:(lia))
      as (Ai & Bk & _ & _ & HBk & _).
    apply lookup_lt_Some in HBk. split; [lia|].
    apply Forall_lookup. intros k Bk' HBk'.
    apply lookup_take_Some in HBk' as [HBk' Hk].
    destruct (Hreads 0 k (length A - 1) ltac:(lia) ltac:(lia) ltac:(lia))
      as (Ai' & Bk'' & _ & _ & HBk'' & Hj).
    rewrite HBk' in HBk''. injection HBk'' as <-. lia.
Qed.

Lemma matmul_basic_Ok_reads (A B C : matrix) :
  matmul_basic A B = Ok C → dense_reads A B.
Proof.
  unfold matmul_basic, range. intros Hrun i k j Hi Hk Hj.
  destruct (for_each_Ok_body _ _ _ _ Hrun i) as (C0 & C1 & Hbody);
    [apply elem_of_seq; lia|].
  apply bind_Ok_inv in Hbody as (Ai & HAi & Hbody).
  apply bind_Ok_inv in Hbody as (Ci & _ & Hbody).
  apply bind_Ok_inv in Hbody as (Ci' & Hrow & _).
  destruct (for_each_Ok_body _ _ _ _ Hrow k) as (r0 & r1 & Hbodyk);
    [apply elem_of_seq; lia|].
  apply bind_Ok_inv in Hbodyk as (aik & Haik & Hbodyk).
  apply bind_Ok_inv in Hbodyk as (Bk & HBk & Hcols).
  destruct (for_each_Ok_body _ _ _ _ Hcols j) as (c0 & c1 & Hbodyj);
    [apply elem_of_seq; lia|].
  apply bind_Ok_inv in Hbodyj as (cij & _ & Hbodyj).
  apply bind_Ok_inv in Hbodyj as (bkj & Hbkj & _).
  apply getitem_Ok_lt in HAi as [_ HAi], Haik as [Haik _],
    HBk as [_ HBk], Hbkj as [Hbkj _].
  by exists Ai, Bk.
Qed.

(** X1.  [matmul_basic] returns exactly on the operands that fit: when
    every row of [A] has at least [n = len(A)] entries and [B] has at least
    [n] rows of at least [n] entries it returns the product of the leading
    [n] by [n] blocks, so operands that are wider or taller than [n] are not
    rejected but silently cut; on all other operands it raises
    [IndexError]. *)
Theorem matmul_basic_domain (A B : matrix) :
  (dense_fits A B → matmul_basic A B = Ok (mat_product A B))
  ∧ (¬ dense_fits A B → matmul_basic A B = Raise IndexError).
Proof.
  split; [apply matmul_basic_wide|].
  intros Hnot. destruct (matmul_basic A B) as [C|e] eqn:Hrun.
  - destruct Hnot. by eapply dense_reads_fits, matmul_basic_Ok_reads.
  - f_equal. by apply (matmul_basic_raises A B).
Qed.

Lemma transpose_Ok_wide (n : nat) (B : matrix) :
  n ≤ length B → (∀ k, k < n → n ≤ length (mrow B k)) →
  mapM (λ i, mapM (λ j, Bj ← getitem B j; getitem Bj i) (seq 0 n)) (seq 0 n)
  = Ok (transpose n B).
Proof.
  intros HB Hrows. apply mapM_Ok. intros i Hi. apply mapM_Ok. intros j Hj.
  apply elem_of_seq in Hi, Hj.
  rewrite (bind_Ok _ _ _ (getitem_mrow B j ltac:(lia))).
  apply getitem_rget. specialize (Hrows j ltac:(lia)). lia.
Qed.

Lemma matmul_transposed_wide (A B : matrix) :
  dense_fits A B → matmul_transposed A B = Ok (mat_product A B).
Proof.
  intros Hfits. unfold matmul_transposed, mat_product, range.
  set (n := length A).
  destruct (decide (n = 0)) as [Hz|Hz].
  { destruct A; [done|simpl in n; lia]. }
  destruct Hfits as [HA HB]. destruct (HB ltac:(lia)) as [HlenB HrowsB]. fold n in HA, HlenB, HrowsB.
  assert (Hrows : ∀ k, k < n → n ≤ length (mrow B k)).
  { intros k Hk. destruct (lookup_lt_is_Some_2 B k ltac:(lia)) as [Bk HBk].
    rewrite (mrow_lookup _ _ _ HBk).
    apply (Forall_lookup_1 _ _ k Bk HrowsB). by rewrite lookup_take_lt. }
  rewrite (bind_Ok _ _ _ (transpose_Ok_wide n B HlenB Hrows)).
  apply (rows_loop (λ Ai Ci,
    for_each (seq 0 n) Ci (λ Ci j,
      btj ← getitem (transpose n B) j;
      s ← for_each (seq 0 n) f0 (λ s k,
        aik ← getitem Ai k;
        bjk ← getitem btj k;
        Ok (fadd s (fmul aik bjk)));
      setitem Ci j s)) (row_product B n) n A eq_refl).
  intros Ai HAi.
  assert (HlenAi : n ≤ length Ai) by (by apply (proj1 (Forall_forall _ _) HA)).
  assert (HlenT : length (transpose n B) = n).
  { unfold transpose. by rewrite length_fmap, length_seq. }
  destruct (for_each_seq_ind (λ j' (Ci : list F),
    length Ci = n
    ∧ ∀ j, rget Ci j = if decide (j < j') then dot_from Ai B j (seq 0 n) f0 else f0) 0 n
    (λ Ci j,
      btj ← getitem (transpose n B) j;
      s ← for_each (seq 0 n) f0 (λ s k,
        aik ← getitem Ai k;
        bjk ← getitem btj k;
        Ok (fadd s (fmul aik bjk)));
      setitem Ci j s) (replicate n f0)) as (Ci' & -> & Hlen & Hget).
  - split; [apply length_replicate|]. intros j. rewrite rget_replicate.
    by rewrite decide_False by lia.
  - intros j Ci Hj [Hlen Hget].
    rewrite (bind_Ok _ _ _ (getitem_mrow (transpose n B) j ltac:(lia))).
    rewrite (dot_loop Ai _ B j n); [|lia| |].
    + simpl. rewrite setitem_Ok by lia. eexists. split; [done|].
      split; [by rewrite length_insert|].
      intros j'. rewrite rget_insert, Hget by lia.
      destruct (decide (j' = j)) as [->|]; [by rewrite decide_True by lia|].
      destruct (decide (j' < j)); [by rewrite decide_True by lia|].
      by rewrite decide_False by lia.
    + rewrite mrow_transpose by lia. by rewrite length_fmap, length_seq.
    + intros k Hk. apply (mget_transpose n B j k); lia.
  - f_equal. apply list_eq_rget; [by rewrite length_row_product|].
    intros j Hj. rewrite Hget, decide_True by lia. by rewrite rget_row_product by lia.
Qed.

Lemma matmul_transposed_Ok_reads (A B C : matrix) :
  matmul_transposed A B = Ok C → dense_reads A B.
Proof.
  unfold matmul_transposed, range. intros Hrun i k j Hi Hk Hj.
  apply bind_Ok_inv in Hrun as (BT & HBT & Hrun).
  destruct (mapM_Ok_body _ _ _ HBT j) as (col & Hcol); [apply elem_of_seq; lia|].
  destruct (mapM_Ok_body _ _ _ Hcol k) as (b & Hb); [apply elem_of_seq; lia|].
  apply bind_Ok_inv in Hb as (Bk & HBk & Hbkj).
  destruct (for_each_Ok_body _ _ _ _ Hrun i) as (C0 & C1 & Hbody);
    [apply elem_of_seq; lia|].
  apply bind_Ok_inv in Hbody as (Ai & HAi & Hbody).
  apply bind_Ok_inv in Hbody as (Ci & _ & Hbody).
  apply bind_Ok_inv in Hbody as (Ci' & Hrow & _).
  destruct (for_each_Ok_body _ _ _ _ Hrow 0) as (r0 & r1 & Hbodyj);
    [apply elem_of_seq; lia|].
  apply bind_Ok_inv in Hbodyj as (btj & _ & Hbodyj).
  apply bind_Ok_inv in Hbodyj as (s & Hdot & _).
  destruct (for_each_Ok_body _ _ _ _ Hdot k) as (s0 & s1 & Hbodyk);
    [apply elem_of_seq; lia|].
  apply bind_Ok_inv in Hbodyk as (aik & Haik & _).
  apply getitem_Ok_lt in HAi as [_ HAi], Haik as [Haik _],
    HBk as [_ HBk], Hbkj as [Hbkj _].
  by exists Ai, Bk.
Qed.

(** X2.  The transposed kernel and the naive kernel agree on every pair of
    operands, well formed or not: they return on the same operands, with the
    same matrix, and raise [IndexError] on all others. *)
Theorem matmul_transposed_agrees (A B : matrix) :
  matmul_transposed A B = matmul_basic A B.
Proof.
  destruct (matmul_basic A B) as [C|e] eqn:Hbasic.
  - pose proof (dense_reads_fits _ _ (matmul_basic_Ok_reads _ _ _ Hbasic)) as Hfits.
    rewrite matmul_basic_wide in Hbasic by done. rewrite <- Hbasic.
    by apply matmul_transposed_wide.
  - rewrite (matmul_basic_raises A B e Hbasic).
    destruct (matmul_transposed A B) as [C|e'] eqn:Htr.
    + pose proof (dense_reads_fits _ _ (matmul_transposed_Ok_reads _ _ _ Htr)) as Hfits.
      by rewrite matmul_basic_wide in Hbasic.
    + f_equal. by apply (matmul_transposed_raises A B).
Qed.

(** ** The blocked kernel on arbitrary operands *)

Lemma dense_fits_covers (A B : matrix) :
  dense_fits A B → covers (length A) A ∧ covers (length A) B.
Proof.
  intros [HA HB]. split.
  - split; [done|]. intros i Hi.
    destruct (lookup_lt_is_Some_2 A i Hi) as [Ai HAi].
    rewrite (mrow_lookup _ _ _ HAi). by apply (Forall_lookup_1 _ _ i Ai HA).
  - destruct (decide (length A = 0)) as [Hz|Hz].
    { rewrite Hz. split; [lia|]. intros i Hi. lia. }
    destruct (HB ltac:(lia)) as [HlenB HrowsB]. split; [done|].
    intros k Hk. destruct (lookup_lt_is_Some_2 B k ltac:(lia)) as [Bk HBk].
    rewrite (mrow_lookup _ _ _ HBk).
    apply (Forall_lookup_1 _ _ k Bk HrowsB). by rewrite lookup_take_lt.
Qed.

Lemma matmul_blocked_wide (A B : matrix) (BS : Z) :
  (0 < BS)%Z → dense_fits A B → matmul_blocked A B BS = Ok (mat_product A B).
Proof.
  intros HBS Hfits. destruct (dense_fits_covers A B Hfits) as [HA HB].
  unfold matmul_blocked. set (n := length A) in *.
  rewrite (bind_Ok _ _ _ (range_step_pos n BS HBS)).
  destruct (ii_loop n A B (zeros n n) BS) as (C' & Hrun & HC' & Hget);
    [done|done|done|apply shape_zeros|].
  cbv zeta in Hrun |- *. rewrite Hrun.
  f_equal. apply (matrix_eq_mget n n); [done|apply shape_mat_product|].
  intros i j Hi Hj. rewrite Hget by done. rewrite mget_zeros.
  by rewrite mget_mat_product by done.
Qed.

(** Every index below [n] lies in one block of [range(0, n, bs)]. *)
Lemma block_of_index (n bs i : nat) :
  0 < bs → i < n →
  i / bs * bs ∈ (λ q, q * bs) <$> seq 0 ((n + bs - 1) / bs)
  ∧ i ∈ seq (i / bs * bs) (Nat.min (i / bs * bs + bs) n - i / bs * bs).
Proof.
  intros Hbs Hi.
  pose proof (Nat.div_mod_eq i bs) as Hdi.
  pose proof (Nat.mod_upper_bound i bs ltac:(lia)) as Hmi.
  pose proof (Nat.div_mod_eq (n + bs - 1) bs) as Hdn.
  pose proof (Nat.mod_upper_bound (n + bs - 1) bs ltac:(lia)) as Hmn.
  split.
  - apply list_elem_of_fmap. exists (i / bs). split; [done|].
    apply elem_of_seq. split; [lia|]. nia.
  - apply elem_of_seq. nia.
Qed.

Lemma matmul_blocked_Ok_reads (A B C : matrix) (BS : Z) :
  (0 < BS)%Z → matmul_blocked A B BS = Ok C → dense_reads A B.
Proof.
  intros HBS Hrun i k j Hi Hk Hj. unfold matmul_blocked in Hrun.
  set (n := length A) in *. set (bs := Z.to_nat BS) in *.
  assert (Hbs : 0 < bs) by lia.
  destruct (block_of_index n bs i Hbs Hi) as [Hii Hin_i].
  destruct (block_of_index n bs k Hbs Hk) as [Hkk Hin_k].
  destruct (block_of_index n bs j Hbs Hj) as [Hjj Hin_j].
  rewrite (bind_Ok _ _ _ (range_step_pos n BS HBS)) in Hrun. fold bs in Hrun.
  destruct (for_each_Ok_body _ _ _ _ Hrun _ Hii) as (C0 & C1 & Hbody).
  rewrite (bind_Ok _ _ _ (range_step_pos n BS HBS)) in Hbody. fold bs in Hbody.
  destruct (for_each_Ok_body _ _ _ _ Hbody _ Hkk) as (C2 & C3 & Hbody2).
  rewrite (bind_Ok _ _ _ (range_step_pos n BS HBS)) in Hbody2. fold bs in Hbody2.
  destruct (for_each_Ok_body _ _ _ _ Hbody2 _ Hjj) as (C4 & C5 & Htile).
  cbv zeta in Htile. unfold range2 in Htile.
  destruct (for_each_Ok_body _ _ _ _ Htile _ Hin_i) as (C6 & C7 & Hrow).
  apply bind_Ok_inv in Hrow as (Ci & _ & Hrow).
  apply bind_Ok_inv in Hrow as (Ai & HAi & Hrow).
  apply bind_Ok_inv in Hrow as (Ci' & Hks & _).
  destruct (for_each_Ok_body _ _ _ _ Hks _ Hin_k) as (r0 & r1 & Hbodyk).
  apply bind_Ok_inv in Hbodyk as (aik & Haik & Hbodyk).
  apply bind_Ok_inv in Hbodyk as (Bk & HBk & Hcols).
  destruct (for_each_Ok_body _ _ _ _ Hcols _ Hin_j) as (c0 & c1 & Hbodyj).
  apply bind_Ok_inv in Hbodyj as (cij & _ & Hbodyj).
  apply bind_Ok_inv in Hbodyj as (bkj & Hbkj & _).
  apply getitem_Ok_lt in HAi as [_ HAi], Haik as [Haik _],
    HBk as [_ HBk], Hbkj as [Hbkj _].
  by exists Ai, Bk.
Qed.

Lemma raises_only_range_step (P : exn → Prop) (n : nat) (BS : Z) :
  (0 < BS)%Z → raises_only P (range_step n BS).
Proof. intros HBS. rewrite range_step_pos by done. apply raises_only_Ok. Qed.

Lemma matmul_blocked_raises (A B : matrix) (BS : Z) :
  (0 < BS)%Z → raises_only (λ e, e = IndexError) (matmul_blocked A B BS).
Proof.
  intros HBS. unfold matmul_blocked. cbv zeta.
  apply raises_only_bind; [by apply raises_only_range_step|]. intros iis.
  apply raises_only_for_each. intros C0 ii.
  apply raises_only_bind; [by apply raises_only_range_step|]. intros kks.
  apply raises_only_for_each. intros C1 kk.
  apply raises_only_bind; [by apply raises_only_range_step|]. intros jjs.
  raises_index.
Qed.

(** X3.  For every block size [BS ≥ 1] (the default 64 included) the
    blocked kernel and the naive kernel agree on every pair of operands:
    they return on the same operands, with the same matrix, and raise
    [IndexError] on all others.  The block size changes nothing but the
    order in which the entries are visited. *)
Theorem matmul_blocked_agrees (A B : matrix) (BS : Z) :
  (0 < BS)%Z → matmul_blocked A B BS = matmul_basic A B.
Proof.
  intros HBS. destruct (matmul_basic A B) as [C|e] eqn:Hbasic.
  - pose proof (dense_reads_fits _ _ (matmul_basic_Ok_reads _ _ _ Hbasic)) as Hfits.
    rewrite matmul_basic_wide in Hbasic by done. rewrite <- Hbasic.
    by apply matmul_blocked_wide.
  - rewrite (matmul_basic_raises A B e Hbasic).
    destruct (matmul_blocked A B BS) as [C|e'] eqn:Hbl.
    + pose proof (dense_reads_fits _ _ (matmul_blocked_Ok_reads _ _ _ _ HBS Hbl)) as Hfits.
      by rewrite matmul_basic_wide in Hbasic.
    + f_equal. by apply (matmul_blocked_raises A B BS HBS).
Qed.

(** ** More workers than rows *)


(** ** The values of the sparse product *)

Lemma zget_lookup (l : list Z) (i : nat) (x : Z) : l !! i = Some x → zget l i = x.
Proof. unfold zget. by intros ->. Qed.

Lemma sp_dot_snoc col_idx vals B j ps p x :
  sp_dot col_idx vals B j (ps ++ [p]) x
  = fadd (sp_dot col_idx vals B j ps x)
         (fmul (rget vals (Z.to_nat p))
               (mget B (Z.to_nat (zget col_idx (Z.to_nat p))) j)).
Proof. unfold sp_dot. by rewrite foldl_app. Qed.

(** The loop over the stored entries of one row. *)
Lemma sp_row_loop (col_idx : list Z) (vals : list F) (B : matrix) (n : nat)
    (start end_ : Z) (Ci : list F) :
  (0 ≤ start)%Z → (end_ ≤ Z.of_nat (length col_idx))%Z →
  (end_ ≤ Z.of_nat (length vals))%Z →
  Forall (λ k, (0 ≤ k < Z.of_nat (length B))%Z) col_idx →
  Forall (λ r, n ≤ length r) B →
  length Ci = n →
  ∃ Ci', for_each (rangeZ start end_) Ci (λ Ci p,
           k ← getitemZ col_idx p;
           aik ← getitemZ vals p;
           Bk ← getitemZ B k;
           for_each (seq 0 n) Ci (λ Ci j,
             cij ← getitem Ci j;
             bkj ← getitem Bk j;
             setitem Ci j (fadd cij (fmul aik bkj)))) = Ok Ci'
       ∧ length Ci' = n
       ∧ ∀ j, j < n →
           rget Ci' j = sp_dot col_idx vals B j (rangeZ start end_) (rget Ci j).
Proof.
  intros Hstart Hend Hendv Hcol Hrows HCi.
  destruct (for_each_ind (λ q (Ci' : list F),
      length Ci' = n
      ∧ ∀ j, j < n →
          rget Ci' j = sp_dot col_idx vals B j (take q (rangeZ start end_)) (rget Ci j))
    (rangeZ start end_)
    (λ Ci p,
      k ← getitemZ col_idx p;
      aik ← getitemZ vals p;
      Bk ← getitemZ B k;
      for_each (seq 0 n) Ci (λ Ci j,
        cij ← getitem Ci j;
        bkj ← getitem Bk j;
        setitem Ci j (fadd cij (fmul aik bkj)))) Ci) as (Ci' & Hrun & Hlen & Hget).
  - split; [done|]. intros j Hj. by rewrite take_0.
  - intros q pp Ci1 Hq [Hlen Hget].
    apply lookup_rangeZ in Hq as Hpp. destruct Hpp as [Hpp Hlt].
    destruct (getitemZ_nat col_idx pp ltac:(lia)) as (k & Hk & ->).
    destruct (getitemZ_nat vals pp ltac:(lia)) as (aik & Haik & ->). simpl.
    pose proof (Forall_lookup_1 _ _ _ _ Hcol Hk) as Hkr. simpl in Hkr.
    destruct (getitemZ_nat B k Hkr) as (Bk & HBk & ->). simpl.
    pose proof (Forall_lookup_1 _ _ _ _ Hrows HBk) as HBkr. simpl in HBkr.
    destruct (axpy_loop aik Bk Ci1 0 n) as (Ci2 & -> & Hlen2 & Hget2); [lia..|].
    exists Ci2. split; [done|]. split; [lia|].
    intros j Hj. rewrite Hget2, decide_True by lia.
    rewrite (take_S_r _ _ _ Hq), sp_dot_snoc, Hget by done.
    rewrite (rget_lookup _ _ _ Haik), (zget_lookup _ _ _ Hk).
    unfold mget. by rewrite (mrow_lookup _ _ _ HBk).
  - exists Ci'. split; [done|]. split; [done|].
    intros j Hj. rewrite Hget by done. by rewrite firstn_all.
Qed.

(** On a CSR triple that fits the dense operand the kernel computes
    [sp_product]. *)
Lemma spmm_csr_dense_spec (row_ptr col_idx : list Z) (vals : list F) (B : matrix) :
  0 < length B → csr_fits row_ptr col_idx vals B →
  spmm_csr_dense row_ptr col_idx vals B = Ok (sp_product row_ptr col_idx vals B).
Proof.
  intros HB (Hrp & Hptr & Hcol & Hrows). unfold spmm_csr_dense, sp_product, range.
  rewrite (bind_Ok _ _ _ (getitem_mrow B 0 HB)).
  set (n := length (mrow B 0)). fold n in Hrows.
  replace (Z.to_nat (Z.of_nat (length row_ptr) - 1)) with (length row_ptr - 1) by lia.
  set (m := length row_ptr - 1).
  destruct (for_each_seq_ind (λ q (C : matrix),
      C = (sp_row row_ptr col_idx vals B n <$> seq 0 q)
          ++ replicate (m - q) (replicate n f0)) 0 m
    (λ (C : matrix) i,
      start ← getitem row_ptr i; end_ ← getitem row_ptr (i + 1);
      Ci ← getitem C i;
      Ci ← for_each (rangeZ start end_) Ci (λ Ci p,
        k ← getitemZ col_idx p;
        aik ← getitemZ vals p;
        Bk ← getitemZ B k;
        for_each (seq 0 n) Ci (λ Ci j,
          cij ← getitem Ci j;
          bkj ← getitem Bk j;
          setitem Ci j (fadd cij (fmul aik bkj))));
      setitem C i Ci) (zeros m n)) as (C' & -> & HC').
  - by rewrite Nat.sub_0_r.
  - intros i C Hi ->. rewrite seq_S, fmap_app, <- app_assoc.
    destruct (getitem_lt row_ptr i ltac:(lia)) as (start & Hstart & ->).
    destruct (getitem_lt row_ptr (i + 1) ltac:(lia)) as (end_ & Hend & ->). simpl.
    pose proof (Forall_lookup_1 _ _ _ _ Hptr Hstart) as Hs. simpl in Hs.
    pose proof (Forall_lookup_1 _ _ _ _ Hptr Hend) as He. simpl in He.
    assert (Hl : length (sp_row row_ptr col_idx vals B n <$> seq 0 i) = i).
    { by rewrite length_fmap, length_seq. }
    replace (m - i) with (S (m - S i)) by lia.
    erewrite (bind_Ok (getitem _ i)); last first.
    { apply getitem_Ok. rewrite lookup_app_r by lia. by rewrite Hl, Nat.sub_diag. }
    destruct (sp_row_loop col_idx vals B n start end_ (replicate n f0))
      as (Ci' & -> & Hlen & Hget); [lia|lia|lia|done|done|apply length_replicate|].
    simpl. rewrite setitem_Ok by (rewrite length_app, Hl; simpl; lia).
    eexists. split; [done|].
    rewrite insert_app_r_alt by lia. rewrite Hl, Nat.sub_diag. simpl.
    do 2 f_equal.
    apply list_eq_rget; [unfold sp_row; by rewrite length_fmap, length_seq|].
    intros j Hj. rewrite Hlen in Hj. rewrite Hget, rget_replicate by done.
    symmetry. apply rget_lookup. unfold sp_row.
    rewrite list_lookup_fmap, lookup_seq_lt by done. simpl.
    by rewrite (zget_lookup _ _ _ Hstart), (zget_lookup _ _ _ Hend).
  - f_equal. rewrite HC'. simpl. by rewrite Nat.sub_diag, app_nil_r.
Qed.

(** X5.  On a CSR triple that fits the dense operand, [spmm_csr_dense]
    returns the sparse product: entry [(i, j)] is the sum, taken in the
    order in which the nonzeros of row [i] are stored, of
    [vals[p] * B[col_idx[p]][j]] for [p] from [row_ptr[i]] up to
    [row_ptr[i+1]]; entries of [col_idx] and [vals] outside these ranges are
    never read. *)
Theorem spmm_csr_dense_product (row_ptr col_idx : list Z) (vals : list F) (B : matrix) :
  0 < length B → csr_fits row_ptr col_idx vals B →
  spmm_csr_dense row_ptr col_idx vals B = Ok (sp_product row_ptr col_idx vals B).
Proof. apply spmm_csr_dense_spec. Qed.

(** X6.  Rows without stored entries cost nothing and read nothing: when no
    row pointer is larger than its predecessor (in particular when there is
    no nonzero at all) and [B] has a row, the result is the zero matrix of
    shape [(len(row_ptr) - 1)] by [len(B[0])], whatever [col_idx], [vals]
    and the other rows of [B] hold. *)
Theorem spmm_csr_dense_no_entries (row_ptr col_idx : list Z) (vals : list F) (B : matrix) :
  0 < length B →
  (∀ i a b, row_ptr !! i = Some a → row_ptr !! (i + 1) = Some b → (b ≤ a)%Z) →
  spmm_csr_dense row_ptr col_idx vals B
  = Ok (zeros (length row_ptr - 1) (length (mrow B 0))).
Proof.
  intros HB Hflat. unfold spmm_csr_dense, range.
  rewrite (bind_Ok _ _ _ (getitem_mrow B 0 HB)).
  set (n := length (mrow B 0)).
  replace (Z.to_nat (Z.of_nat (length row_ptr) - 1)) with (length row_ptr - 1) by lia.
  set (m := length row_ptr - 1).
  destruct (for_each_seq_ind (λ _ (C : matrix), C = zeros m n) 0 m
    (λ (C : matrix) i,
      start ← getitem row_ptr i; end_ ← getitem row_ptr (i + 1);
      Ci ← getitem C i;
      Ci ← for_each (rangeZ start end_) Ci (λ Ci p,
        k ← getitemZ col_idx p;
        aik ← getitemZ vals p;
        Bk ← getitemZ B k;
        for_each (seq 0 n) Ci (λ Ci j,
          cij ← getitem Ci j;
          bkj ← getitem Bk j;
          setitem Ci j (fadd cij (fmul aik bkj))));
      setitem C i Ci) (zeros m n)) as (C' & -> & ->); [done| |done].
  intros i C Hi ->.
  destruct (getitem_lt row_ptr i ltac:(lia)) as (start & Hstart & ->).
  destruct (getitem_lt row_ptr (i + 1) ltac:(lia)) as (end_ & Hend & ->). simpl.
  pose proof (Hflat i start end_ Hstart Hend) as Hle.
  assert (Hrow : zeros m n !! i = Some (replicate n f0)).
  { unfold zeros. apply lookup_replicate_2. lia. }
  rewrite (bind_Ok _ _ _ (getitem_Ok _ _ _ Hrow)).
  unfold rangeZ. replace (Z.to_nat (end_ - start)) with 0 by lia. simpl.
  rewrite setitem_Ok by (unfold zeros; rewrite length_replicate; lia).
  eexists. split; [done|]. by apply list_insert_id.
Qed.


(** ** The parallel kernel on operands that are not square *)

Lemma worker_chunk_wide (A_chunk B : matrix) (start_i : Z) :
  Forall (λ r, length B ≤ length r) A_chunk →
  Forall (λ r, length B ≤ length r) B →
  worker_chunk (A_chunk, B, start_i)
  = Ok (start_i, row_product B (length B) <$> A_chunk).
Proof.
  intros HA HB. unfold worker_chunk, range. set (n := length B).
  destruct (for_each_ind (λ q (C_chunk : matrix),
    C_chunk = row_product B n <$> take q A_chunk) (enumerate A_chunk)
    (λ (C_chunk : matrix) '(idx, Ai),
      let Ci := replicate n f0 in
      Ci ← for_each (seq 0 n) Ci (λ Ci k,
        aik ← getitem Ai k;
        Bk ← getitem B k;
        for_each (seq 0 n) Ci (λ Ci j,
          cij ← getitem Ci j;
          bkj ← getitem Bk j;
          setitem Ci j (fadd cij (fmul aik bkj))));
      Ok (C_chunk ++ [Ci])) []) as (C' & Hrun & HC').
  - by rewrite take_0.
  - intros q [idx Ai] C_chunk Hq ->. apply lookup_enumerate in Hq as [_ Hq].
    simpl in Hq. cbv zeta. rewrite row_full_loop_wide.
    + eexists. split; [done|]. by rewrite (take_S_r _ _ _ Hq), fmap_app.
    + by apply (Forall_lookup_1 _ _ _ _ HA Hq).
    + done.
    + intros k Hk. destruct (lookup_lt_is_Some_2 B k Hk) as [Bk HBk].
      rewrite (mrow_lookup _ _ _ HBk). by apply (Forall_lookup_1 _ _ _ _ HB HBk).
  - cbv zeta in Hrun |- *. rewrite Hrun. simpl.
    rewrite HC', length_enumerate. by rewrite take_ge by lia.
Qed.

Lemma parallel_mul_wide (A B : matrix) (p : Z) :
  (1 ≤ p)%Z →
  Forall (λ r, length B ≤ length r) A →
  Forall (λ r, length B ≤ length r) B →
  parallel_mul A B p = Ok (row_product B (length B) <$> A).
Proof.
  intros Hp HA HB. unfold parallel_mul, floordiv, ProcessPoolExecutor.
  rewrite decide_False by lia. rewrite decide_False by lia. simpl.
  set (pn := Z.to_nat p). assert (Hpn : 0 < pn) by lia.
  replace p with (Z.of_nat pn) by lia. rewrite make_tasks_nat by done.
  set (n := length A). set (m := length B). set (c := n / pn).
  rewrite (mapM_Ok worker_chunk
             (λ task, (task.2, row_product B m <$> task.1.1))); last first.
  { intros [[ch B'] s] Hin. apply list_elem_of_fmap in Hin as (t & [= -> -> ->] & _).
    apply worker_chunk_wide; [|done]. unfold chunk_of. by apply Forall_take, Forall_drop. }
  rewrite <- list_fmap_compose. unfold compose. simpl.
  destruct (for_each_ind (λ q (C' : matrix),
      C' = (row_product B m <$> take (covered n pn c q) A)
           ++ drop (covered n pn c q) (zeros n n))
    ((λ t, (Z.of_nat (t * c), row_product B m <$> chunk_of A pn c t)) <$> seq 0 pn)
    (λ (C : matrix) '(start_i, C_chunk),
      for_each (enumerate C_chunk) C (λ (C : matrix) '(off, row),
        setitemZ C (start_i + Z.of_nat off) row)) (zeros n n)) as (C' & -> & HC').
  - unfold covered. rewrite decide_False by lia. by rewrite take_0.
  - intros q [s rows] C1 Hq ->. rewrite list_lookup_fmap in Hq.
    destruct (seq 0 pn !! q) as [t|] eqn:Ht; [|done].
    apply lookup_seq in Ht as [-> Hlt]. simpl in Hq. injection Hq as <- <-.
    pose proof (covered_step A pn q Hlt) as Hstep. fold n c in Hstep.
    pose proof (length_chunk_of A pn q Hlt) as Hlen. fold n c in Hlen.
    pose proof (chunk_cut n pn q Hlt) as Hcut. fold c in Hcut.
    assert (Hcov : covered n pn c q = q * c).
    { unfold covered. by rewrite decide_False by lia. }
    assert (Hle : q * c + chunk_len n pn c q ≤ n).
    { unfold chunk_len. case_decide; lia. }
    rewrite Hcov.
    assert (Hl1 : length (row_product B m <$> take (q * c) A) = q * c).
    { rewrite length_fmap, length_take. fold n. lia. }
    rewrite merge_chunk; last first.
    { rewrite length_app, Hl1, length_drop, length_fmap, Hlen.
      unfold zeros. rewrite length_replicate. lia. }
    eexists. split; [done|].
    rewrite take_app_length' by done.
    rewrite drop_app_ge by lia. rewrite Hl1, drop_drop.
    rewrite length_fmap, Hlen, app_assoc, <- fmap_app. unfold chunk_of. fold n.
    rewrite take_take_drop, Hstep. do 2 f_equal. lia.
  - f_equal. rewrite HC', length_fmap, length_seq. unfold covered.
    rewrite decide_True by done. rewrite take_ge by (fold n; lia).
    rewrite drop_ge by (unfold zeros; rewrite length_replicate; lia).
    by rewrite app_nil_r.
Qed.

(** X8.  [parallel_mul] takes the row width of its result from [B], not
    from [A]: for every worker count [p ≥ 1], when [B] has [m] rows and
    every row of [A] and of [B] has [m] entries or more, it returns, for any
    number of rows of [A], the rows [A[i] · B] of width [m].  When [A] has
    [m] rows too this is what [matmul_basic] returns. *)
Theorem parallel_mul_rectangular (A B : matrix) (p : Z) :
  (1 ≤ p)%Z →
  Forall (λ r, length B ≤ length r) A →
  Forall (λ r, length B ≤ length r) B →
  parallel_mul A B p = Ok (row_product B (length B) <$> A)
  ∧ (length A = length B → parallel_mul A B p = matmul_basic A B).
Proof.
  intros Hp HA HB. split; [by apply parallel_mul_wide|].
  intros Hlen. rewrite parallel_mul_wide by done.
  rewrite matmul_basic_wide; [unfold mat_product; by rewrite Hlen|].
  split; [by rewrite Hlen|]. intros _. split; [lia|].
  rewrite Hlen. by apply Forall_take.
Qed.

(** ** The sparse generator on targets outside [0, n*n), and on sizes
    below 1 *)







Lemma gen_sparse_csr_negative (n : Z) (density : float) (seed : Z) :
  (n < 0)%Z →
  gen_sparse_csr n density seed = (_ ← nnz_target n density; Ok ([0%Z], [], [])).
Proof.
  intros Hn. unfold gen_sparse_csr, nnz_target.
  destruct (float_of_int (n * n)) as [nn|e]; [|done]. simpl.
  destruct (int_of_float (float_mul nn density)) as [T|e]; [|done]. simpl.
  unfold floordiv, rangeZ. rewrite decide_False by lia.
  by replace (Z.to_nat (n - 0)) with 0 by lia.
Qed.

(** X9.  A negative size is not rejected by the sparse path: for [n < 0]
    the generator computes the target [int(n*n*density)], raising what
    that raises, and then returns the empty [0] by [0] matrix
    [([0], [], [])] without drawing; [gen_dense] returns [[]], and the run
    fails with [IndexError] at [B[0]] inside [spmm_csr_dense], after both
    operands were generated and the clock was read once. *)
Theorem run_once_sparse_negative_size (n BS : Z) (density : float) (seed : Z) (w : world) :
  (n < 0)%Z →
  gen_sparse_csr n density seed = (_ ← nnz_target n density; Ok ([0%Z], [], []))
  ∧ run_once n Sparse BS density w
    = match nnz_target n density with
      | Ok _ =>
          (Raise IndexError,
           World (w_global_rng w) (S (w_ticks w))
                 (w_log w ++ [EvGenerateSparse n density BASE_SEED;
                              EvGenerate n (BASE_SEED + 1);
                              EvSpmm [0%Z] [] [] []]))
      | Raise e =>
          (Raise e,
           World (w_global_rng w) (w_ticks w)
                 (w_log w ++ [EvGenerateSparse n density BASE_SEED]))
      end.
Proof.
  intros Hn. split; [by apply gen_sparse_csr_negative|].
  destruct (nnz_target n density) as [T|e] eqn:HT.
  - unfold run_once, mbind, M_bind, log, lift, perf_counter.
    cbn [w_global_rng w_ticks w_log].
    rewrite gen_sparse_csr_negative, HT by done. simpl.
    rewrite gen_dense_nonpos by lia. simpl. by rewrite <- !app_assoc.
  - by apply run_once_sparse_raises, gen_sparse_csr_target_raises.
Qed.



Lemma emit_cols_vals_unit (st : csr_acc) (cols : list Z) :
  Forall unit_interval (acc_vals st) →
  Forall unit_interval (acc_vals (emit_cols st cols)).
Proof.
  unfold emit_cols. revert st. induction cols as [|j cols IH]; intros st Hst; [done|].
  simpl. pose proof (rnd_random_unit (acc_rnd st)) as Hv.
  destruct (rnd_random (acc_rnd st)) as [v rnd']. apply IH. simpl.
  apply Forall_app. split; [done|]. by repeat constructor.
Qed.

(** X12.  Whenever [gen_sparse_csr] returns, for any size, density and seed,
    [vals] is as long as [col_idx] and every stored value is a value of
    [random()], hence lies in [0, 1): a stored entry may be [0.0], but
    never negative and never [1.0]. *)
Theorem gen_sparse_csr_values (n : Z) (density : float) (seed : Z)
    (row_ptr col_idx : list Z) (vals : list F) :
  gen_sparse_csr n density seed = Ok (row_ptr, col_idx, vals) →
  length vals = length col_idx ∧ Forall unit_interval vals.
Proof.
  unfold gen_sparse_csr. intros Hrun.
  apply bind_Ok_inv in Hrun as (nn & _ & Hrun).
  apply bind_Ok_inv in Hrun as (T & _ & Hrun).
  apply bind_Ok_inv in Hrun as (q & _ & Hrun). cbv zeta in Hrun.
  apply bind_Ok_inv in Hrun as (st & Hloop & Hret).
  injection Hret as _ <- <-.
  refine (returns_for_each
            (λ st, length (acc_vals st) = length (acc_col_idx st)
                   ∧ Forall unit_interval (acc_vals st)) _ _ _ _ _ st Hloop).
  - by split.
  - intros s i [Hl Hu] s' Hbody.
    apply bind_Ok_inv in Hbody as ([cols rnd'] & _ & Hbody).
    injection Hbody as <-. simpl.
    set (st1 := CsrAcc rnd' (acc_row_ptr s) (acc_col_idx s) (acc_vals s)).
    destruct (emit_cols_spec st1 (merge_sort Z.le cols)) as (_ & E2 & E3).
    split; [rewrite E2, E3, length_app; simpl; lia|].
    by apply emit_cols_vals_unit.
Qed.

(** ** Whole runs of the drivers *)

Lemma mean_windows (t R : nat) : 0 < R → mean (windows_ms t R) = Ok (avg_ms t R).
Proof.
  intros HR. unfold mean, avg_ms.
  assert (Hlen : length (windows_ms t R) = R).
  { unfold windows_ms. by rewrite length_fmap, length_seq. }
  destruct (windows_ms t R) as [|x xs]; [simpl in Hlen; lia|]. by rewrite Hlen.
Qed.

Lemma windows_ms_S (t R : nat) : windows_ms t (S R) = windows_ms t R ++ [window_ms t R].
Proof. unfold windows_ms. by rewrite seq_S, fmap_app. Qed.

Lemma avg_rows_snoc (t R : nat) (sizes : list Z) (n : Z) :
  avg_rows t R (sizes ++ [n])
  = avg_rows t R sizes ++ [(n, avg_ms (t + length sizes * (2 * R)) R)].
Proof. unfold avg_rows. rewrite imap_app. cbn [imap]. by rewrite Nat.add_0_r. Qed.


(** One call of [bench], for any size and any repetition count. *)
Lemma bench_run (n repeats : Z) (w : world) :
  bench n repeats w
  = (mean (windows_ms (w_ticks w) (Z.to_nat repeats)),
     World (w_global_rng w) (w_ticks w + 2 * Z.to_nat repeats)
           (w_log w ++ concat (bench_events n <$> rangeZ 0 repeats))).
Proof.
  unfold bench.
  destruct (for_each_M_ind (λ q (times : list Q) w',
      times = windows_ms (w_ticks w) q
      ∧ w' = World (w_global_rng w) (w_ticks w + 2 * q)
               (w_log w ++ concat (bench_events n <$> take q (rangeZ 0 repeats))))
    (rangeZ 0 repeats)
    (λ times_ms r,
      _ ← log (EvGenerate n (BASE_SEED + r));
      let A := gen_matrix n (BASE_SEED + r) in
      _ ← log (EvGenerate n (BASE_SEED + 1 + r));
      let B := gen_matrix n (BASE_SEED + 1 + r) in
      t0 ← perf_counter;
      _ ← log (EvMultiply A B);
      _ ← lift (matmul_basic A B);
      t1 ← perf_counter;
      mret (times_ms ++ [elapsed_ms t0 t1])) [] w) as (times & w' & Hrun & -> & ->).
  - split; [done|]. rewrite take_0. simpl. rewrite app_nil_r, Nat.add_0_r.
    by destruct w.
  - intros q r times w1 Hq [-> ->]. cbv zeta.
    unfold mbind, M_bind, log, perf_counter, lift, mret, M_ret.
    cbn [w_global_rng w_ticks w_log].
    rewrite (matmul_basic_spec _ (gen_matrix n (BASE_SEED + r))
               (gen_matrix n (BASE_SEED + 1 + r))
               (shape_gen_dense n (BASE_SEED + r))
               (shape_gen_dense n (BASE_SEED + 1 + r))).
    eexists _, _. split; [done|]. split; [by rewrite windows_ms_S|].
    f_equal; [lia|].
    rewrite (take_S_r _ _ _ Hq), fmap_app, concat_app. simpl.
    by rewrite <- !app_assoc.
  - rewrite (M_bind_Ok _ _ _ _ _ Hrun). unfold lift.
    rewrite firstn_all, length_rangeZ.
    by replace (Z.to_nat (repeats - 0)) with (Z.to_nat repeats) by lia.
Qed.

(** X13.  One call of the Stage 1 [bench] with [repeats ≥ 1] never fails,
    for any size (also zero or negative): it generates two operands per
    repetition from the seeds [BASE_SEED + r] and [BASE_SEED + 1 + r], reads
    the clock twice per repetition, around the multiplication only, and
    returns the mean of the [repeats] elapsed times. *)
Theorem bench_result (n repeats : Z) (w : world) :
  (1 ≤ repeats)%Z →
  bench n repeats w
  = (Ok (avg_ms (w_ticks w) (Z.to_nat repeats)),
     World (w_global_rng w) (w_ticks w + 2 * Z.to_nat repeats)
           (w_log w ++ concat (bench_events n <$> rangeZ 0 repeats))).
Proof. intros HR. rewrite bench_run. by rewrite mean_windows by lia. Qed.

Lemma main1_run (sizes : list Z) (repeats : Z) (w : world) :
  (1 ≤ repeats)%Z →
  main1 sizes repeats w
  = (Ok (avg_rows (w_ticks w) (Z.to_nat repeats) sizes),
     World (w_global_rng w) (w_ticks w + length sizes * (2 * Z.to_nat repeats))
           (w_log w ++ concat ((λ n, concat (bench_events n <$> rangeZ 0 repeats))
                               <$> sizes))).
Proof.
  intros HR. unfold main1. set (R := Z.to_nat repeats).
  destruct (for_each_M_ind (λ q (rows : list (Z * Q)) w',
      rows = avg_rows (w_ticks w) R (take q sizes)
      ∧ w' = World (w_global_rng w) (w_ticks w + q * (2 * R))
               (w_log w ++ concat ((λ n, concat (bench_events n <$> rangeZ 0 repeats))
                                   <$> take q sizes)))
    sizes (λ rows n, avg_ms ← bench n repeats; mret (rows ++ [(n, avg_ms)])) [] w)
    as (rows & w' & Hrun & -> & ->).
  - split; [done|]. rewrite take_0. simpl. rewrite app_nil_r, Nat.add_0_r.
    by destruct w.
  - intros q n rows w1 Hq [-> ->].
    apply lookup_lt_Some in Hq as Hlt.
    rewrite (M_bind_Ok _ _ _ _ _ (eq_trans (bench_run n repeats _)
               (f_equal (λ r, (r, _)) (mean_windows _ R ltac:(lia))))).
    eexists _, _. split; [done|]. cbn [w_global_rng w_ticks w_log].
    rewrite (take_S_r _ _ _ Hq), avg_rows_snoc, length_take.
    replace (q `min` length sizes) with q by lia. split; [done|].
    f_equal; [unfold R; lia|].
    rewrite fmap_app, concat_app. simpl. by rewrite app_nil_r, <- app_assoc.
  - rewrite Hrun. by rewrite firstn_all.
Qed.

(** X14.  A whole run of the Stage 1 driver with [repeats ≥ 1] never fails
    and returns one row per size, in the order of the sizes and also for
    sizes that repeat or are not positive; row [s] holds the mean of the
    elapsed times of its own repetitions, the clock is read
    [2 * repeats] times per size and nothing else is timed. *)
Theorem main1_rows (sizes : list Z) (repeats : Z) (w : world) :
  (1 ≤ repeats)%Z →
  (main1 sizes repeats w).1 = Ok (avg_rows (w_ticks w) (Z.to_nat repeats) sizes)
  ∧ (avg_rows (w_ticks w) (Z.to_nat repeats) sizes).*1 = sizes
  ∧ w_ticks (main1 sizes repeats w).2
    = w_ticks w + length sizes * (2 * Z.to_nat repeats).
Proof.
  intros HR. rewrite main1_run by done. split; [done|]. split; [|done].
  unfold avg_rows. generalize (w_ticks w). intros t.
  induction sizes as [|n sizes IH] using rev_ind; [done|].
  fold (avg_rows t (Z.to_nat repeats) (sizes ++ [n])).
  rewrite avg_rows_snoc, !fmap_app. unfold avg_rows at 1. by rewrite IH.
Qed.





Lemma rangeZ_empty (a b : Z) : (b ≤ a)%Z → rangeZ a b = [].
Proof. intros Hab. unfold rangeZ. by replace (Z.to_nat (b - a)) with 0 by lia. Qed.

(** X16.  A repetition count of zero or below is not rejected.  In Stages 1
    and 2 nothing is generated or multiplied and the first size fails with
    [StatisticsError], raised by [statistics.mean] on the empty list of
    times; in Stage 3 the run succeeds without any row, for every worker
    count, also the counts for which [parallel_mul] would raise. *)
Theorem nonpositive_repeats (n : Z) (sizes : list Z) (a : algo)
    (threads block repeats : Z) (density : float) (w : world) :
  (repeats ≤ 0)%Z →
  bench n repeats w = (Raise StatisticsError, w)
  ∧ main1 (n :: sizes) repeats w = (Raise StatisticsError, w)
  ∧ main2 (n :: sizes) a repeats block density w = (Raise StatisticsError, w)
  ∧ main3 (n :: sizes) threads repeats w = (Ok [], w).
Proof.
  intros HR.
  assert (Hbench : bench n repeats w = (Raise StatisticsError, w)).
  { unfold bench. by rewrite rangeZ_empty by done. }
  split; [done|]. split; [|split].
  - unfold main1. cbn [for_each]. unfold mbind, M_bind. by rewrite Hbench.
  - unfold main2. cbn [for_each]. by rewrite rangeZ_empty by done.
  - unfold main3. rewrite rangeZ_empty by done.
    assert (Hloop : ∀ (xs : list Z) (st : gmap Z Q * list par_row) w0,
      for_each xs st (λ st (n : Z),
        for_each ([] : list Z) st (λ st r, main3_body threads repeats n st)) w0
      = (Ok st, w0)).
    { induction xs as [|x xs IH]; intros st w0; [done|].
      cbn [for_each]. unfold mbind, M_bind at 1. unfold mret, M_ret at 1. apply IH. }
    unfold mbind, M_bind. by rewrite Hloop.
Qed.

Lemma par_rows_snoc (t R : nat) (threads repeats : Z) (sizes : list Z) (n : Z) :
  par_rows t R threads repeats (sizes ++ [n])
  = par_rows t R threads repeats sizes
    ++ ((λ r, ParRow n threads repeats (window_ms (t + length sizes * (2 * R)) r) 1%Q
                     (Qdiv 1 (inject_Z threads))) <$> seq 0 R).
Proof.
  unfold par_rows. rewrite imap_app, concat_app. cbn [imap concat].
  by rewrite Nat.add_0_r, app_nil_r.
Qed.

Lemma main3_loop_run (sizes : list Z) (threads repeats : Z) (w : world) :
  (1 ≤ threads)%Z →
  ∃ T1,
    main3_loop sizes threads repeats w
    = (Ok (T1, par_rows (w_ticks w) (Z.to_nat repeats) threads repeats sizes),
       World (w_global_rng w) (w_ticks w + length sizes * (2 * Z.to_nat repeats))
             (w_log w ++ concat ((λ n, concat (replicate (Z.to_nat repeats) (par_events n)))
                                 <$> sizes)))
    ∧ (threads ≠ 1%Z → T1 = ∅)
    ∧ (threads = 1%Z → (1 ≤ repeats)%Z → NoDup sizes →
       ∀ s n, sizes !! s = Some n →
         T1 !! n = Some (window_ms (w_ticks w + s * (2 * Z.to_nat repeats))
                                   (Z.to_nat repeats - 1))).
Proof.
  intros Ht. unfold main3_loop. set (R := Z.to_nat repeats).
  set (row := λ (n : Z) (t0 r : nat),
    ParRow n threads repeats (window_ms t0 r) 1%Q (Qdiv 1 (inject_Z threads))).
  assert (Hinner : ∀ n T1 rows w0,
    (threads ≠ 1%Z → T1 = ∅) →
    ∃ T1', for_each (rangeZ 0 repeats) (T1, rows)
             (λ st r, main3_body threads repeats n st) w0
           = (Ok (T1', rows ++ (row n (w_ticks w0) <$> seq 0 R)),
              World (w_global_rng w0) (w_ticks w0 + 2 * R)
                    (w_log w0 ++ concat (replicate R (par_events n))))
         ∧ (threads ≠ 1%Z → T1' = ∅)
         ∧ (threads = 1%Z → 0 < R →
            T1' = <[n := window_ms (w_ticks w0) (R - 1)]> T1)).
  { intros n T1 rows w0 HT1.
    destruct (for_each_M_ind (λ q (st : gmap Z Q * list par_row) w1,
        (threads ≠ 1%Z → st.1 = ∅)
        ∧ (threads = 1%Z →
           st.1 = match q with
                  | 0 => T1
                  | S q' => <[n := window_ms (w_ticks w0) q']> T1
                  end)
        ∧ st.2 = rows ++ (row n (w_ticks w0) <$> seq 0 q)
        ∧ w1 = World (w_global_rng w0) (w_ticks w0 + 2 * q)
                 (w_log w0 ++ concat (replicate q (par_events n))))
      (rangeZ 0 repeats) (λ st r, main3_body threads repeats n st) (T1, rows) w0)
      as ([T1' rows'] & w' & Hrun & H1 & H1' & H2 & H3).
    - simpl. split; [done|]. split; [done|].
      rewrite !app_nil_r, Nat.add_0_r. split; [done|]. by destruct w0.
    - intros q r [T rs] w1 _ (HT & HT' & Hrs & ->). simpl in HT, HT', Hrs. subst rs.
      rewrite main3_body_ok by done. cbv zeta. cbn [w_global_rng w_ticks w_log].
      assert (Hrow : ∀ T', ∃ (st' : gmap Z Q * list par_row) w',
        (Ok (T', (rows ++ (row n (w_ticks w0) <$> seq 0 q))
                 ++ [ParRow n threads repeats
                       (elapsed_ms (clock (w_ticks w0 + 2 * q))
                                   (clock (S (w_ticks w0 + 2 * q))))
                       1%Q (Qdiv 1 (inject_Z threads))]),
         World (w_global_rng w0) (S (S (w_ticks w0 + 2 * q)))
               ((w_log w0 ++ concat (replicate q (par_events n))) ++ par_events n))
        = (Ok st', w')
        ∧ (T' = st'.1)
        ∧ st'.2 = rows ++ (row n (w_ticks w0) <$> seq 0 (S q))
        ∧ w' = World (w_global_rng w0) (w_ticks w0 + 2 * S q)
                 (w_log w0 ++ concat (replicate (S q) (par_events n)))).
      { intros T'. eexists _, _. split; [done|]. split; [done|]. split.
        - cbn [snd]. by rewrite seq_S, fmap_app, app_assoc.
        - f_equal; [lia|]. by rewrite concat_replicate_S_r, app_assoc. }
      destruct (decide (threads = 1)%Z) as [E|E].
      + destruct (Hrow (<[n := elapsed_ms (clock (w_ticks w0 + 2 * q))
                                (clock (S (w_ticks w0 + 2 * q)))]> T))
          as (st' & w' & -> & HT'' & ? & ?).
        exists st', w'. split; [done|]. split; [done|]. split; [|by split].
        intros _. rewrite <- HT'', (HT' E). unfold window_ms.
        destruct q as [|q']; [done|]. by rewrite insert_insert_eq.
      + rewrite (HT E), lookup_empty.
        destruct (Hrow ∅) as (st' & w' & -> & HT'' & ? & ?).
        exists st', w'. split; [done|]. split; [done|]. split; [done|]. by split.
    - simpl in H1, H1', H2. rewrite length_rangeZ in H1', H2, H3.
      replace (Z.to_nat (repeats - 0)) with R in H1', H2, H3 by (unfold R; lia).
      exists T1'. rewrite Hrun, H2, H3. split; [done|]. split; [done|].
      intros E HR. rewrite (H1' E). destruct R as [|R']; [lia|].
      by replace (S R' - 1) with R' by lia. }
  destruct (for_each_M_ind (λ q (st : gmap Z Q * list par_row) w1,
      (threads ≠ 1%Z → st.1 = ∅)
      ∧ (threads = 1%Z → 0 < R → NoDup sizes →
         ∀ s n, s < q → sizes !! s = Some n →
           st.1 !! n = Some (window_ms (w_ticks w + s * (2 * R)) (R - 1)))
      ∧ st.2 = par_rows (w_ticks w) R threads repeats (take q sizes)
      ∧ w1 = World (w_global_rng w) (w_ticks w + q * (2 * R))
               (w_log w ++ concat ((λ n, concat (replicate R (par_events n)))
                                   <$> take q sizes)))
    sizes (λ st n, for_each (rangeZ 0 repeats) st
                     (λ st r, main3_body threads repeats n st)) (∅, []) w)
    as ([T1' rows'] & w' & Hrun & H1 & H1' & H2 & H3).
  - simpl. split; [done|]. split; [intros _ _ _ s n Hs; lia|]. split; [done|].
    rewrite app_nil_r, Nat.add_0_r. by destruct w.
  - intros q n [T rs] w1 Hq (HT & HT' & Hrs & ->). simpl in HT, HT', Hrs. subst rs.
    apply lookup_lt_Some in Hq as Hlt.
    destruct (Hinner n T (par_rows (w_ticks w) R threads repeats (take q sizes))
                (World (w_global_rng w) (w_ticks w + q * (2 * R))
                   (w_log w ++ concat ((λ n, concat (replicate R (par_events n)))
                                       <$> take q sizes))) HT)
      as (T' & -> & HT1 & HT2).
    eexists _, _. split; [done|]. cbn [fst snd w_global_rng w_ticks w_log].
    split; [done|]. split; [|split].
    + intros E HR Hnd s m Hs Hm. cbn [w_ticks] in HT2. rewrite (HT2 E HR).
      destruct (decide (s = q)) as [->|Hne].
      * rewrite Hq in Hm. injection Hm as <-. by rewrite lookup_insert_eq.
      * rewrite lookup_insert_ne; [apply (HT' E HR Hnd); [lia|done]|].
        intros <-. apply Hne. by apply (NoDup_lookup sizes s q n).
    + rewrite (take_S_r _ _ _ Hq), par_rows_snoc, length_take.
      by replace (q `min` length sizes) with q by lia.
    + f_equal; [lia|].
      rewrite (take_S_r _ _ _ Hq), fmap_app, concat_app. simpl.
      by rewrite app_nil_r, <- app_assoc.
  - simpl in H1, H1', H2. rewrite firstn_all in H2, H3.
    exists T1'. rewrite Hrun, H2, H3. split; [done|]. split; [done|].
    intros E HR Hnd s n Hs. apply (H1' E); [unfold R; lia|done| |done].
    by apply lookup_lt_Some in Hs.
Qed.

Lemma main3_whole_run (sizes : list Z) (threads repeats : Z) (w : world) :
  (1 ≤ threads)%Z →
  main3 sizes threads repeats w
  = (Ok (par_rows (w_ticks w) (Z.to_nat repeats) threads repeats sizes),
     World (w_global_rng w) (w_ticks w + length sizes * (2 * Z.to_nat repeats))
           (w_log w ++ concat ((λ n, concat (replicate (Z.to_nat repeats) (par_events n)))
                               <$> sizes))).
Proof.
  intros Ht. destruct (main3_loop_run sizes threads repeats w Ht) as (T1 & Hrun & _).
  unfold main3. by rewrite (M_bind_Ok _ _ _ _ _ Hrun).
Qed.



(** X17.  A whole run of the Stage 3 driver with a worker count [p ≥ 1]
    never fails and is known exactly: one row per size and repetition, in
    order, each with the elapsed time of its own multiplication, the
    speedup 1 and the efficiency [1 / p], for every worker count: the
    baseline table is written only when [p = 1], where it is not read, and
    starts empty in each run, so the quotient [T1[n] / dt] is never taken.
    Every repetition generates both operands from [SEED] and reads the
    clock twice. *)
Theorem main3_rows (sizes : list Z) (threads repeats : Z) (w : world) :
  (1 ≤ threads)%Z →
  main3 sizes threads repeats w
  = (Ok (par_rows (w_ticks w) (Z.to_nat repeats) threads repeats sizes),
     World (w_global_rng w) (w_ticks w + length sizes * (2 * Z.to_nat repeats))
           (w_log w ++ concat ((λ n, concat (replicate (Z.to_nat repeats) (par_events n)))
                               <$> sizes)))
  ∧ Forall (λ row, row_speed row = 1%Q ∧ row_eff row = Qdiv 1 (inject_Z threads))
           (par_rows (w_ticks w) (Z.to_nat repeats) threads repeats sizes).
Proof.
  intros Ht. split; [by apply main3_whole_run|].
  unfold par_rows. apply Forall_concat, Forall_forall. intros rs Hrs.
  apply list_elem_of_lookup in Hrs as [s Hs]. rewrite list_lookup_imap in Hs.
  destruct (sizes !! s) as [n|]; [|done]. simpl in Hs. injection Hs as <-.
  apply Forall_fmap, Forall_forall. by intros r _.
Qed.

(** ** The sparse kernel on a matrix that stores every entry *)

Lemma lookup_concat_uniform {X} (rows : list (list X)) (n i k : nat) :
  Forall (λ r, length r = n) rows → k < n →
  concat rows !! (i * n + k) = rows !! i ≫= (.!! k).
Proof.
  intros Hrows Hk. revert i. induction Hrows as [|r rows Hr Hrows IH]; intros i.
  - simpl. by rewrite lookup_nil.
  - destruct i as [|i]; simpl.
    + rewrite lookup_app_l by lia. done.
    + rewrite lookup_app_r by lia. rewrite Hr.
      replace (n + i * n + k - n) with (i * n + k) by lia. apply IH.
Qed.

Lemma length_concat_uniform {X} (rows : list (list X)) (n : nat) :
  Forall (λ r, length r = n) rows → length (concat rows) = length rows * n.
Proof.
  induction 1 as [|r rows Hr Hrows IH]; [done|].
  simpl. rewrite length_app, IH, Hr. lia.
Qed.

Lemma foldl_ext_in {X Y} (f g : Y → X → Y) (l : list X) (a : Y) :
  (∀ s x, x ∈ l → f s x = g s x) → foldl f a l = foldl g a l.
Proof.
  revert a. induction l as [|x l IH]; intros a Hfg; [done|].
  simpl. rewrite Hfg by left. apply IH. intros s y Hy. apply Hfg. by right.
Qed.

Lemma spmm_csr_dense_full (n : nat) (A B : matrix) :
  0 < n → shape n n A → shape n n B →
  spmm_csr_dense (csr_of_full n A).1.1 (csr_of_full n A).1.2 (csr_of_full n A).2 B
  = Ok (mat_product A B).
Proof.
  intros Hn [HlenA HA] [HlenB HB]. unfold csr_of_full. cbn [fst snd].
  set (row_ptr := (λ i, Z.of_nat (i * n)) <$> seq 0 (S n)).
  set (col_idx := concat (replicate n (rangeZ 0 (Z.of_nat n)))).
  assert (Hcols : Forall (λ r : list Z, length r = n) (replicate n (rangeZ 0 (Z.of_nat n)))).
  { apply Forall_replicate. rewrite length_rangeZ. lia. }
  assert (Hlc : length col_idx = n * n).
  { unfold col_idx. by rewrite (length_concat_uniform _ n), length_replicate. }
  assert (Hlv : length (concat A) = n * n).
  { by rewrite (length_concat_uniform _ n), HlenA. }
  assert (Hlp : length row_ptr = S n).
  { unfold row_ptr. by rewrite length_fmap, length_seq. }
  assert (Hptr : ∀ i, i ≤ n → row_ptr !! i = Some (Z.of_nat (i * n))).
  { intros i Hi. unfold row_ptr. by rewrite list_lookup_fmap, lookup_seq_lt by lia. }
  assert (HB0 : length (mrow B 0) = n) by (by apply (shape_mrow n n); [split|lia]).
  rewrite spmm_csr_dense_spec; [|lia|].
  - f_equal. unfold sp_product, mat_product. rewrite Hlp, HB0, HlenA.
    replace (S n - 1) with n by lia.
    apply list_eq. intros i. rewrite !list_lookup_fmap.
    destruct (decide (i < n)) as [Hi|Hi].
    + destruct (lookup_lt_is_Some_2 A i ltac:(lia)) as [Ai HAi].
      rewrite lookup_seq_lt, HAi by done. simpl. f_equal.
      unfold sp_row, row_product. apply list_fmap_ext. intros _ j _.
      rewrite (zget_lookup _ _ _ (Hptr i ltac:(lia))).
      rewrite (zget_lookup _ _ _ (Hptr (i + 1) ltac:(lia))).
      unfold sp_dot, dot_from, rangeZ.
      replace (Z.to_nat (Z.of_nat ((i + 1) * n) - Z.of_nat (i * n))) with n by lia.
      rewrite foldl_fmap. apply foldl_ext_in. intros s k Hk.
      apply elem_of_seq in Hk. simpl.
      replace (Z.to_nat (Z.of_nat (i * n) + Z.of_nat k)) with (i * n + k) by lia.
      f_equal. f_equal.
      * unfold rget. rewrite (lookup_concat_uniform A n) by (done || lia).
        by rewrite HAi.
      * unfold zget, col_idx. rewrite (lookup_concat_uniform _ n) by (done || lia).
        rewrite lookup_replicate_2 by done. simpl. unfold rangeZ.
        rewrite list_lookup_fmap, lookup_seq_lt by lia. simpl.
        by replace (Z.to_nat (0 + Z.of_nat k)) with k by lia.
    + rewrite lookup_seq_ge by lia. by rewrite lookup_ge_None_2 by lia.
  - split; [lia|]. split; [|split].
    + apply Forall_fmap, Forall_forall. intros i Hi. apply elem_of_seq in Hi. simpl.
      rewrite Hlc, Hlv. nia.
    + apply Forall_concat, Forall_replicate.
      eapply Forall_impl; [apply rangeZ_in_range|]. simpl. intros k. lia.
    + rewrite HB0. eapply Forall_impl; [exact HB|]. simpl. intros r. lia.
Qed.

(** X19.  The sparse kernel is consistent with the dense kernels where the
    two can be compared exactly: on the CSR form of an [n] by [n] matrix
    that stores every entry ([n ≥ 1]), [spmm_csr_dense] returns what
    [matmul_basic] returns on the matrix itself, every entry being the same
    sum of the same products in the same order. *)
Theorem spmm_csr_dense_full_matrix (n : nat) (A B : matrix) :
  0 < n → shape n n A → shape n n B →
  spmm_csr_dense (csr_of_full n A).1.1 (csr_of_full n A).1.2 (csr_of_full n A).2 B
  = matmul_basic A B.
Proof.
  intros Hn HA HB. rewrite (spmm_csr_dense_full n) by done.
  by rewrite (matmul_basic_spec n).
Qed.

End Program.

(** ** The concrete generator meets the contracts *)


Lemma lcg_random_unit (rnd : Z) : in_unit_interval (lcg_random rnd).1.
Proof.
  unfold in_unit_interval, lcg_random, Qle, Qlt. simpl.
  pose proof (Z.mod_pos_bound rnd 1000 ltac:(lia)). lia.
Qed.

(** ** The claims on concrete inputs *)

(** C1, as first stated, fails for the empty matrix: with [n = 0] the block
    size [BS = n] is zero, [range(0, 0, 0)] raises [ValueError] in the
    blocked kernel, and the naive kernel returns the empty matrix. *)
Lemma blocked_kernel_empty_matrix :
  shape 0 0 ([] : list (list Z))
  ∧ matmul_basic 0%Z Z.add Z.mul [] [] = Ok []
  ∧ matmul_blocked 0%Z Z.add Z.mul [] [] (Z.of_nat 0) = Raise ValueError
  ∧ matmul_blocked 0%Z Z.add Z.mul [] [] (Z.of_nat 0)
    ≠ matmul_basic 0%Z Z.add Z.mul [] [].
Proof. split; [by split|]. by repeat split. Qed.

Lemma dense_kernels_agree_witness :
  shape 2 2 [[1; 2]; [3; 4]]%Z ∧ shape 2 2 [[5; 6]; [7; 8]]%Z
  ∧ (3 = 1 ∨ 3 = Z.of_nat 2 ∨ 3 = Z.of_nat 2 + 1 ∨ 3 = 2 * Z.of_nat 2)%Z
  ∧ 3%Z ≠ 0%Z
  ∧ (matmul_basic 0%Z Z.add Z.mul [[1; 2]; [3; 4]]%Z [[5; 6]; [7; 8]]%Z
     = Ok (mat_product 0%Z Z.add Z.mul [[1; 2]; [3; 4]]%Z [[5; 6]; [7; 8]]%Z)
     ∧ matmul_transposed 0%Z Z.add Z.mul [[1; 2]; [3; 4]]%Z [[5; 6]; [7; 8]]%Z
       = matmul_basic 0%Z Z.add Z.mul [[1; 2]; [3; 4]]%Z [[5; 6]; [7; 8]]%Z
     ∧ matmul_blocked 0%Z Z.add Z.mul [[1; 2]; [3; 4]]%Z [[5; 6]; [7; 8]]%Z 3
       = matmul_basic 0%Z Z.add Z.mul [[1; 2]; [3; 4]]%Z [[5; 6]; [7; 8]]%Z).
Proof.
  assert (HA : shape 2 2 [[1; 2]; [3; 4]]%Z) by (split; [reflexivity|repeat constructor]).
  assert (HB : shape 2 2 [[5; 6]; [7; 8]]%Z) by (split; [reflexivity|repeat constructor]).
  split; [exact HA|]. split; [exact HB|]. split; [lia|]. split; [lia|].
  apply (dense_kernels_agree 0%Z Z.add Z.mul 2 _ _ 3 HA HB); lia.
Defined.








(** The targets of the code on other ordinary inputs: 30 for size 10 and
    density 0.3, 28 for density 0.29, 10 for density 0.1. *)
Example nnz_target_examples :
  nnz_target 10 d_three_tenths = Ok 30%Z
  ∧ nnz_target 10 d_029 = Ok 28%Z
  ∧ nnz_target 10 d_tenth = Ok 10%Z
  ∧ nnz_target 2 d_1e308 = Raise OverflowError.
Proof. by vm_compute. Qed.



Lemma gen_dense_deterministic_witness :
  (0 ≤ 2)%Z
  ∧ gen_dense lcg_seed lcg_random 2 7 = dense_of_stream lcg_random (lcg_seed 7) (Z.to_nat 2)
  ∧ gen_matrix lcg_seed lcg_random 2 7 = gen_dense lcg_seed lcg_random 2 7
  ∧ shape (Z.to_nat 2) (Z.to_nat 2) (gen_dense lcg_seed lcg_random 2 7)
  ∧ Forall (Forall in_unit_interval) (gen_dense lcg_seed lcg_random 2 7).
Proof.
  split; [lia|].
  destruct (gen_dense_deterministic 0%Q lcg_seed lcg_random in_unit_interval
              lcg_random_unit 2 7 ltac:(lia)) as (H1 & H2 & _ & H4 & _ & H6).
  split; [exact H1|]. split; [exact H2|]. split; [exact H4|exact H6].
Defined.

(** C10, as first stated, fails: a dense operand with one row does not make
    the function total; here the row pointers run past [col_idx]. *)
Lemma spmm_csr_dense_short_col_idx :
  spmm_csr_dense 0%Z Z.add Z.mul [0; 1]%Z [] [] [[1%Z]] = Raise IndexError.
Proof. reflexivity. Qed.

Lemma spmm_csr_dense_shape_witness :
  [[1; 2]]%Z ≠ [] ∧ csr_fits [0; 1]%Z [0]%Z [5]%Z [[1; 2]]%Z
  ∧ ∃ C : list (list Z),
      spmm_csr_dense 0%Z Z.add Z.mul [0; 1]%Z [0]%Z [5]%Z [[1; 2]]%Z = Ok C
      ∧ shape (length [0; 1]%Z - 1) (length (mrow [[1; 2]]%Z 0)) C.
Proof.
  assert (HB : [[1; 2]]%Z ≠ []) by discriminate.
  assert (Hfits : csr_fits [0; 1]%Z [0]%Z [5]%Z [[1; 2]]%Z).
  { unfold csr_fits. simpl. repeat split; repeat constructor; lia. }
  split; [exact HB|]. split; [exact Hfits|].
  exact (proj2 (spmm_csr_dense_shape 0%Z Z.add Z.mul [0; 1]%Z [0]%Z [5]%Z [[1; 2]]%Z)
           HB Hfits).
Defined.

(** The seeds of the three drivers on concrete runs: two repetitions of
    size 2 in each stage. *)
Example stage1_seeds :
  w_log (bench 0%Q Qplus Qmult lcg_seed lcg_random tick_clock 2 2 (World 1%Z 0 [])).2
  = [EvGenerate 2 403086; EvGenerate 2 403087;
     EvMultiply (gen_matrix lcg_seed lcg_random 2 403086)
                (gen_matrix lcg_seed lcg_random 2 403087);
     EvGenerate 2 403087; EvGenerate 2 403088;
     EvMultiply (gen_matrix lcg_seed lcg_random 2 403087)
                (gen_matrix lcg_seed lcg_random 2 403088)].
Proof. vm_compute. reflexivity. Qed.

Example stage2_seeds :
  w_log (main2 0%Q Qplus Qmult lcg_seed lcg_random lcg_sample tick_clock
           [2%Z] Basic 2 64 d_twentieth (World 1%Z 0 [])).2
  = [EvGenerate 2 403086; EvGenerate 2 403087;
     EvMultiply (gen_dense lcg_seed lcg_random 2 403086)
                (gen_dense lcg_seed lcg_random 2 403087);
     EvGenerate 2 403086; EvGenerate 2 403087;
     EvMultiply (gen_dense lcg_seed lcg_random 2 403086)
                (gen_dense lcg_seed lcg_random 2 403087)].
Proof. vm_compute. reflexivity. Qed.

Example stage3_seeds :
  w_log (main3 0%Q Qplus Qmult lcg_seed lcg_random tick_clock
           [2%Z] 1 2 (World 1%Z 0 [])).2
  = [EvGenerate 2 403086; EvGenerate 2 403086;
     EvMultiply (generate_dense lcg_seed lcg_random 2)
                (generate_dense lcg_seed lcg_random 2);
     EvGenerate 2 403086; EvGenerate 2 403086;
     EvMultiply (generate_dense lcg_seed lcg_random 2)
                (generate_dense lcg_seed lcg_random 2)].
Proof. vm_compute. reflexivity. Qed.

(** ** The further properties on concrete inputs *)

(** Operands that are wider and taller than [len(A)] are cut to the leading
    block; a missing row of [B] raises. *)
Lemma matmul_basic_domain_witness :
  dense_fits [[1; 2; 9]; [3; 4; 9]]%Z [[5; 6]; [7; 8]; [0; 0]]%Z
  ∧ matmul_basic 0%Z Z.add Z.mul [[1; 2; 9]; [3; 4; 9]]%Z [[5; 6]; [7; 8]; [0; 0]]%Z
    = Ok [[19; 22]; [43; 50]]%Z
  ∧ ¬ dense_fits [[1]; [2]]%Z ([] : list (list Z))
  ∧ matmul_basic 0%Z Z.add Z.mul [[1]; [2]]%Z [] = Raise IndexError.
Proof.
  assert (H1 : dense_fits [[1; 2; 9]; [3; 4; 9]]%Z [[5; 6]; [7; 8]; [0; 0]]%Z).
  { split; [repeat constructor; simpl; lia|]. intros _.
    split; [simpl; lia|repeat constructor; simpl; lia]. }
  assert (H2 : ¬ dense_fits [[1]; [2]]%Z ([] : list (list Z))).
  { intros [H _]. apply Forall_cons in H as [H _]. simpl in H. lia. }
  split; [exact H1|]. split.
  - exact (proj1 (matmul_basic_domain 0%Z Z.add Z.mul
                    [[1; 2; 9]; [3; 4; 9]]%Z [[5; 6]; [7; 8]; [0; 0]]%Z) H1).
  - split; [exact H2|].
    exact (proj2 (matmul_basic_domain 0%Z Z.add Z.mul [[1]; [2]]%Z []) H2).
Defined.

(** A block size that does not divide the dimension. *)
Lemma matmul_blocked_agrees_witness :
  (0 < 2)%Z
  ∧ matmul_blocked 0%Z Z.add Z.mul [[1; 2; 3]; [4; 5; 6]; [7; 8; 9]]%Z
      [[1; 0; 2]; [0; 1; 0]; [3; 0; 1]]%Z 2
    = matmul_basic 0%Z Z.add Z.mul [[1; 2; 3]; [4; 5; 6]; [7; 8; 9]]%Z
        [[1; 0; 2]; [0; 1; 0]; [3; 0; 1]]%Z.
Proof.
  assert (H : (0 < 2)%Z) by lia. split; [exact H|].
  exact (matmul_blocked_agrees 0%Z Z.add Z.mul [[1; 2; 3]; [4; 5; 6]; [7; 8; 9]]%Z
           [[1; 0; 2]; [0; 1; 0]; [3; 0; 1]]%Z 2 H).
Defined.


(** Row 0 stores [2] in column 0 and [3] in column 1, row 1 stores [4] in
    column 1. *)
Lemma spmm_csr_dense_product_witness :
  0 < length [[1; 2]; [3; 4]]%Z
  ∧ csr_fits [0; 2; 3]%Z [0; 1; 1]%Z [2; 3; 4]%Z [[1; 2]; [3; 4]]%Z
  ∧ spmm_csr_dense 0%Z Z.add Z.mul [0; 2; 3]%Z [0; 1; 1]%Z [2; 3; 4]%Z [[1; 2]; [3; 4]]%Z
    = Ok [[11; 16]; [12; 16]]%Z.
Proof.
  assert (HB : 0 < length [[1; 2]; [3; 4]]%Z) by (simpl; lia).
  assert (Hfits : csr_fits [0; 2; 3]%Z [0; 1; 1]%Z [2; 3; 4]%Z [[1; 2]; [3; 4]]%Z).
  { unfold csr_fits. simpl. repeat split; repeat constructor; lia. }
  split; [exact HB|]. split; [exact Hfits|].
  exact (spmm_csr_dense_product 0%Z Z.add Z.mul [0; 2; 3]%Z [0; 1; 1]%Z [2; 3; 4]%Z
           [[1; 2]; [3; 4]]%Z HB Hfits).
Defined.

(** Row pointers that never increase, over a [col_idx] that names no row
    of [B] and an empty [vals]. *)
Lemma spmm_csr_dense_no_entries_witness :
  0 < length [[1; 2; 3]]%Z
  ∧ (∀ i a b, [2; 2; 1]%Z !! i = Some a → [2; 2; 1]%Z !! (i + 1) = Some b → (b ≤ a)%Z)
  ∧ spmm_csr_dense 0%Z Z.add Z.mul [2; 2; 1]%Z [7]%Z [] [[1; 2; 3]]%Z
    = Ok [[0; 0; 0]; [0; 0; 0]]%Z.
Proof.
  assert (HB : 0 < length [[1; 2; 3]]%Z) by (simpl; lia).
  assert (Hflat : ∀ i a b, [2; 2; 1]%Z !! i = Some a →
                    [2; 2; 1]%Z !! (i + 1) = Some b → (b ≤ a)%Z).
  { intros [|[|[|i]]] a b; simpl; intros Ha Hb; try discriminate;
      injection Ha as <-; injection Hb as <-; lia. }
  split; [exact HB|]. split; [exact Hflat|].
  exact (spmm_csr_dense_no_entries 0%Z Z.add Z.mul [2; 2; 1]%Z [7]%Z []
           [[1; 2; 3]]%Z HB Hflat).
Defined.


(** Three rows of width two times the 2 by 2 identity, on two workers; and
    a square pair, on which the naive kernel returns the same. *)
Lemma parallel_mul_rectangular_witness :
  (1 ≤ 2)%Z
  ∧ Forall (λ r, length [[1; 0]; [0; 1]]%Z ≤ length r) [[1; 2]; [3; 4]; [5; 6]]%Z
  ∧ Forall (λ r, length [[1; 0]; [0; 1]]%Z ≤ length r) [[1; 0]; [0; 1]]%Z
  ∧ parallel_mul 0%Z Z.add Z.mul [[1; 2]; [3; 4]; [5; 6]]%Z [[1; 0]; [0; 1]]%Z 2
    = Ok [[1; 2]; [3; 4]; [5; 6]]%Z
  ∧ length [[1; 0]; [0; 1]]%Z = length [[1; 0]; [0; 1]]%Z
  ∧ parallel_mul 0%Z Z.add Z.mul [[1; 0]; [0; 1]]%Z [[1; 0]; [0; 1]]%Z 2
    = matmul_basic 0%Z Z.add Z.mul [[1; 0]; [0; 1]]%Z [[1; 0]; [0; 1]]%Z.
Proof.
  assert (Hp : (1 ≤ 2)%Z) by lia.
  assert (HA : Forall (λ r, length [[1; 0]; [0; 1]]%Z ≤ length r)
                 [[1; 2]; [3; 4]; [5; 6]]%Z) by (repeat constructor).
  assert (HB : Forall (λ r, length [[1; 0]; [0; 1]]%Z ≤ length r)
                 [[1; 0]; [0; 1]]%Z) by (repeat constructor).
  split; [exact Hp|]. split; [exact HA|]. split; [exact HB|]. split.
  - exact (proj1 (parallel_mul_rectangular 0%Z Z.add Z.mul [[1; 2]; [3; 4]; [5; 6]]%Z
                    [[1; 0]; [0; 1]]%Z 2 Hp HA HB)).
  - split; [reflexivity|].
    exact (proj2 (parallel_mul_rectangular 0%Z Z.add Z.mul [[1; 0]; [0; 1]]%Z
                    [[1; 0]; [0; 1]]%Z 2 Hp HB HB) eq_refl).
Defined.

(** Size -3 with density 0.5, where the target is 4 and the failure is the
    [IndexError] of the kernel; and size -2 with density 1e308, where the
    generator raises [OverflowError]. *)
Lemma run_once_sparse_negative_size_witness :
  ((-3 < 0)%Z
   ∧ gen_sparse_csr lcg_seed lcg_random lcg_sample (-3) d_half 7
     = Ok ([0%Z], [], [])
   ∧ run_once 0%Q Qplus Qmult lcg_seed lcg_random lcg_sample tick_clock
       (-3) Sparse 64 d_half (World 1%Z 0 [])
     = (Raise IndexError,
        World 1%Z 1 [EvGenerateSparse (-3) d_half BASE_SEED;
                     EvGenerate (-3) (BASE_SEED + 1); EvSpmm [0%Z] [] [] []]))
  ∧ ((-2 < 0)%Z
     ∧ gen_sparse_csr (F := Q) lcg_seed lcg_random lcg_sample (-2) d_1e308 7
       = Raise OverflowError
     ∧ run_once 0%Q Qplus Qmult lcg_seed lcg_random lcg_sample tick_clock
         (-2) Sparse 64 d_1e308 (World 1%Z 0 [])
       = (Raise OverflowError,
          World 1%Z 0 [EvGenerateSparse (-2) d_1e308 BASE_SEED])).
Proof.
  split.
  - assert (Hn : (-3 < 0)%Z) by lia. split; [exact Hn|].
    exact (run_once_sparse_negative_size 0%Q Qplus Qmult lcg_seed lcg_random lcg_sample
             tick_clock (-3) 64 d_half 7 (World 1%Z 0 []) Hn).
  - assert (Hn : (-2 < 0)%Z) by lia. split; [exact Hn|].
    exact (run_once_sparse_negative_size 0%Q Qplus Qmult lcg_seed lcg_random lcg_sample
             tick_clock (-2) 64 d_1e308 7 (World 1%Z 0 []) Hn).
Defined.



Lemma gen_sparse_csr_values_witness :
  gen_sparse_csr lcg_seed lcg_random lcg_sample 3 d_half 7
  = Ok ([0; 2; 3; 4]%Z, [1; 2; 2; 2]%Z, [116 # 1000; 333 # 1000; 571 # 1000; 521 # 1000])
  ∧ length [116 # 1000; 333 # 1000; 571 # 1000; 521 # 1000] = length [1; 2; 2; 2]%Z
  ∧ Forall in_unit_interval [116 # 1000; 333 # 1000; 571 # 1000; 521 # 1000].
Proof.
  assert (Hrun : gen_sparse_csr lcg_seed lcg_random lcg_sample 3 d_half 7
                 = Ok ([0; 2; 3; 4]%Z, [1; 2; 2; 2]%Z,
                       [116 # 1000; 333 # 1000; 571 # 1000; 521 # 1000]))
    by (vm_compute; reflexivity).
  split; [exact Hrun|].
  exact (gen_sparse_csr_values lcg_seed lcg_random lcg_sample in_unit_interval
           lcg_random_unit 3 d_half 7 _ _ _ Hrun).
Defined.

(** Two repetitions of size 2 on a clock that advances by one second per
    reading. *)
Lemma bench_result_witness :
  (1 ≤ 2)%Z
  ∧ bench 0%Q Qplus Qmult lcg_seed lcg_random tick_clock 2 2 (World 1%Z 0 [])
    = (Ok (avg_ms tick_clock 0 2),
       World 1%Z 4 (concat (bench_events lcg_seed lcg_random 2 <$> rangeZ 0 2))).
Proof.
  assert (HR : (1 ≤ 2)%Z) by lia. split; [exact HR|].
  exact (bench_result 0%Q Qplus Qmult lcg_seed lcg_random tick_clock 2 2
           (World 1%Z 0 []) HR).
Defined.

(** Sizes that repeat and a size zero. *)
Lemma main1_rows_witness :
  (1 ≤ 2)%Z
  ∧ (main1 0%Q Qplus Qmult lcg_seed lcg_random tick_clock [2; 0; 2]%Z 2
       (World 1%Z 0 [])).1
    = Ok [(2%Z, avg_ms tick_clock 0 2); (0%Z, avg_ms tick_clock 4 2);
          (2%Z, avg_ms tick_clock 8 2)]
  ∧ [(2%Z, avg_ms tick_clock 0 2); (0%Z, avg_ms tick_clock 4 2);
     (2%Z, avg_ms tick_clock 8 2)].*1 = [2; 0; 2]%Z
  ∧ w_ticks (main1 0%Q Qplus Qmult lcg_seed lcg_random tick_clock [2; 0; 2]%Z 2
               (World 1%Z 0 [])).2 = 12.
Proof.
  assert (HR : (1 ≤ 2)%Z) by lia. split; [exact HR|].
  exact (main1_rows 0%Q Qplus Qmult lcg_seed lcg_random tick_clock [2; 0; 2]%Z 2
           (World 1%Z 0 []) HR).
Defined.


Lemma nonpositive_repeats_witness :
  (0 ≤ 0)%Z
  ∧ bench 0%Q Qplus Qmult lcg_seed lcg_random tick_clock 2 0 (World 1%Z 0 [])
    = (Raise StatisticsError, World 1%Z 0 [])
  ∧ main1 0%Q Qplus Qmult lcg_seed lcg_random tick_clock [2; 3]%Z 0 (World 1%Z 0 [])
    = (Raise StatisticsError, World 1%Z 0 [])
  ∧ main2 0%Q Qplus Qmult lcg_seed lcg_random lcg_sample tick_clock [2; 3]%Z Basic 0 64
      d_half (World 1%Z 0 [])
    = (Raise StatisticsError, World 1%Z 0 [])
  ∧ main3 0%Q Qplus Qmult lcg_seed lcg_random tick_clock [2; 3]%Z 0 0 (World 1%Z 0 [])
    = (Ok [], World 1%Z 0 []).
Proof.
  assert (HR : (0 ≤ 0)%Z) by lia. split; [exact HR|].
  exact (nonpositive_repeats 0%Q Qplus Qmult lcg_seed lcg_random lcg_sample tick_clock
           2 [3]%Z Basic 0 64 0 d_half (World 1%Z 0 []) HR).
Defined.

(** Four workers, one size, two repetitions: both rows record speedup 1. *)
Lemma main3_rows_witness :
  (1 ≤ 4)%Z
  ∧ main3 0%Q Qplus Qmult lcg_seed lcg_random tick_clock [2]%Z 4 2 (World 1%Z 0 [])
    = (Ok [ParRow 2 4 2 (window_ms tick_clock 0 0) 1 (Qdiv 1 (inject_Z 4));
           ParRow 2 4 2 (window_ms tick_clock 0 1) 1 (Qdiv 1 (inject_Z 4))],
       World 1%Z 4 (par_events lcg_seed lcg_random 2 ++ par_events lcg_seed lcg_random 2))
  ∧ Forall (λ row, row_speed row = 1%Q ∧ row_eff row = Qdiv 1 (inject_Z 4))
      [ParRow 2 4 2 (window_ms tick_clock 0 0) 1 (Qdiv 1 (inject_Z 4));
       ParRow 2 4 2 (window_ms tick_clock 0 1) 1 (Qdiv 1 (inject_Z 4))].
Proof.
  assert (Ht : (1 ≤ 4)%Z) by lia. split; [exact Ht|].
  exact (main3_rows 0%Q Qplus Qmult lcg_seed lcg_random tick_clock [2]%Z 4 2
           (World 1%Z 0 []) Ht).
Defined.

(** The 2 by 2 matrix [[1, 2], [3, 4]] in CSR form with all four entries
    stored. *)
Lemma spmm_csr_dense_full_matrix_witness :
  0 < 2 ∧ shape 2 2 [[1; 2]; [3; 4]]%Z ∧ shape 2 2 [[5; 6]; [7; 8]]%Z
  ∧ spmm_csr_dense 0%Z Z.add Z.mul [0; 2; 4]%Z [0; 1; 0; 1]%Z [1; 2; 3; 4]%Z
      [[5; 6]; [7; 8]]%Z
    = matmul_basic 0%Z Z.add Z.mul [[1; 2]; [3; 4]]%Z [[5; 6]; [7; 8]]%Z.
Proof.
  assert (Hn : 0 < 2) by lia.
  assert (HA : shape 2 2 [[1; 2]; [3; 4]]%Z) by (split; [reflexivity|repeat constructor]).
  assert (HB : shape 2 2 [[5; 6]; [7; 8]]%Z) by (split; [reflexivity|repeat constructor]).
  split; [exact Hn|]. split; [exact HA|]. split; [exact HB|].
  exact (spmm_csr_dense_full_matrix 0%Z Z.add Z.mul 2 [[1; 2]; [3; 4]]%Z
           [[5; 6]; [7; 8]]%Z Hn HA HB).
Defined.

